(** * Account pool and dispatcher of the URL shortener (src/app.py)

    A shallow embedding of [BitlyAPIManager], of the two routes and of the
    loader of the accounts, with the process state (the manager, the clock,
    the upstream provider) threaded explicitly, followed by the properties of
    the pool, of the retry loop, of the routes and of the loader. *)

From Stdlib Require Import ZArith String Ascii DecimalString Lia.
From stdpp Require Import base option list gmap strings.

Local Open Scope string_scope.
Local Open Scope nat_scope.

(** ** Python strings

    A [str] is modelled as a [string] whose characters are the code points
    below 256. *)

(** [str(n)] for an [int]. *)
Definition str_of_int (n : Z) : string := NilZero.string_of_int (Z.to_int n).

(** [c.isspace()] on the code points below 256. *)
Definition isspace (c : ascii) : bool :=
  let n := nat_of_ascii c in
  ((9 <=? n) && (n <=? 13)) || ((28 <=? n) && (n <=? 32))
  || (n =? 133) || (n =? 160).

Fixpoint lstrip (s : string) : string :=
  match s with
  | EmptyString => EmptyString
  | String c s' => if isspace c then lstrip s' else s
  end.

Fixpoint rstrip (s : string) : string :=
  match s with
  | EmptyString => EmptyString
  | String c s' =>
      match rstrip s' with
      | EmptyString => if isspace c then EmptyString else String c EmptyString
      | r => String c r
      end
  end.

(** [s.strip()] *)
Definition strip (s : string) : string := rstrip (lstrip s).

(** [s.startswith(p)] *)
Definition startswith (s p : string) : bool := String.prefix p s.

(** Truth value of a [str]: the empty string is false. *)
Definition truthy (s : string) : bool :=
  match s with EmptyString => false | String _ _ => true end.

(** ** Data model (lines 16-32) *)

Record Account := mkAccount {
  username : string;
  password : string;
  api_token : string;
  daily_limit : Z;
  current_count : Z;
  last_reset : string
}.

Record URLResult := mkURLResult {
  original_url : string;
  short_url : string;
  account_used : string;
  timestamp : string;
  success : bool;
  error_message : string
}.

(** [BitlyAPIManager]: the pool and its rotation cursor.  Every slot of
    [accounts] is an object of its own, as [load_accounts_from_csv] builds
    them; an account handed out by the pool is a reference to its slot, that
    is, its index.  The cursor starts at 0 and is only ever assigned a
    remainder, so it is a natural number. *)
Record BitlyAPIManager := mkManager {
  accounts : list Account;
  current_account_index : nat;
  base_url : string
}.

(** ** The environment

    [datetime.now()] and [requests.post] are the two windows on the outside.
    Both are oracles: the k-th reading of the clock and the k-th upstream call
    may answer anything. *)

Record Instant := mkInstant {
  strftime_ymd : string;   (* .strftime('%Y-%m-%d') *)
  isoformat : string       (* .isoformat() *)
}.

Record Request := mkRequest {
  endpoint : string;
  authorization : string;
  long_url_sent : string;
  domain : string
}.

(** What [response.json()] and the lookup of ['link'] in it give; the link
    is taken to be a string, as the provider documents it. *)
Inductive Payload :=
  | NotJson (msg : string)   (* response.json() raises, str(e) = msg *)
  | NoLink (msg : string)    (* result['link'] raises, str(e) = msg *)
  | Link (link : string).    (* result['link'] = link *)

Inductive Response :=
  | Failed (msg : string)                       (* requests.post raises *)
  | Http (status_code : Z) (body : Payload).

Record Env := mkEnv {
  now : nat → Instant;
  post : nat → Request → Response
}.

(** One upstream call, as it is logged: the slot of the account whose token
    was sent, the request and the answer. *)
Record Call := mkCall {
  call_account : nat;
  call_request : Request;
  call_response : Response
}.

Record World := mkWorld {
  manager : BitlyAPIManager;
  clock_reads : nat;          (* readings of datetime.now() so far *)
  upstream_log : list Call    (* upstream calls so far, oldest first *)
}.

(** ** State and exceptions *)

Inductive exn := IndexError.

Inductive Result (A : Type) :=
  | Ok (a : A)
  | Raise (e : exn).
Arguments Ok {A} a.
Arguments Raise {A} e.

Definition M (A : Type) : Type := World → Result A * World.

Definition ret {A} (a : A) : M A := λ w, (Ok a, w).

Definition bind {A B} (c : M A) (k : A → M B) : M B :=
  λ w, match c w with
       | (Ok a, w') => k a w'
       | (Raise e, w') => (Raise e, w')
       end.

Definition raise {A} (e : exn) : M A := λ w, (Raise e, w).

Notation "'do' x <- c ; k" := (bind c (λ x, k))
  (at level 10, x name, c at level 100, k at level 200).
Notation "c ;; k" := (bind c (λ _, k))
  (at level 100, k at level 200, right associativity).

Definition with_manager (f : BitlyAPIManager → BitlyAPIManager) : M unit :=
  λ w, (Ok tt, mkWorld (f (manager w)) (clock_reads w) (upstream_log w)).

Definition get_accounts : M (list Account) := λ w, (Ok (accounts (manager w)), w).

Definition get_index : M nat := λ w, (Ok (current_account_index (manager w)), w).

Definition set_index (i : nat) : M unit :=
  with_manager (λ m, mkManager (accounts m) i (base_url m)).

(** [self.accounts[i]], raising out of range. *)
Definition account_at (i : nat) : M Account :=
  λ w, match accounts (manager w) !! i with
       | Some a => (Ok a, w)
       | None => (Raise IndexError, w)
       end.

(** An attribute assignment on the account object in slot [i]. *)
Definition update_account (i : nat) (f : Account → Account) : M unit :=
  with_manager (λ m,
    mkManager (alter f i (accounts m)) (current_account_index m) (base_url m)).

Definition set_current_count (n : Z) (a : Account) : Account :=
  mkAccount (username a) (password a) (api_token a) (daily_limit a) n (last_reset a).

Definition set_last_reset (d : string) (a : Account) : Account :=
  mkAccount (username a) (password a) (api_token a) (daily_limit a) (current_count a) d.

(** [datetime.now()] *)
Definition datetime_now (env : Env) : M Instant :=
  λ w, (Ok (now env (clock_reads w)),
        mkWorld (manager w) (S (clock_reads w)) (upstream_log w)).

(** [requests.post(f"{self.base_url}/shorten", headers=headers, json=data,
    timeout=15)] with the token of the account in slot [i]. *)
Definition requests_post (env : Env) (i : nat) (token long_url : string) : M Response :=
  λ w, let req := mkRequest (base_url (manager w) ++ "/shorten")
                            ("Bearer " ++ token) long_url "bit.ly" in
       let resp := post env (length (upstream_log w)) req in
       (Ok resp,
        mkWorld (manager w) (clock_reads w)
                (upstream_log w ++ [mkCall i req resp])).

(** ** The account pool (lines 35-39 and 119-135) *)

Definition new_manager (accts : list Account) : BitlyAPIManager :=
  mkManager accts 0 "https://api-ssl.bitly.com/v4".

(** The condition of line 132. *)
Definition usable (a : Account) : bool :=
  (current_count a <? daily_limit a)%Z && truthy (api_token a).

(** One round of the loop of [_get_available_account] (lines 124-133): the
    account under the cursor, or nothing when it is not usable. *)
Definition examine (env : Env) : M (option nat) :=
  do i <- get_index;
  do account <- account_at i;
  do accts <- get_accounts;
  set_index ((i + 1) mod length accts);;
  do t <- datetime_now env;
  let today := strftime_ymd t in
  (if negb (last_reset account =? today)%string
   then update_account i (set_current_count 0);;
        update_account i (set_last_reset today)
   else ret tt);;
  do account <- account_at i;
  if usable account then ret (Some i) else ret None.

(** [for _ in range(n)] around [examine]. *)
Fixpoint select_loop (env : Env) (n : nat) : M (option nat) :=
  match n with
  | O => ret None
  | S n' =>
      do r <- examine env;
      match r with
      | Some i => ret (Some i)
      | None => select_loop env n'
      end
  end.

Definition _get_available_account (env : Env) : M (option nat) :=
  do accts <- get_accounts;
  match accts with
  | [] => ret None
  | _ => select_loop env (length accts)
  end.

(** ** The dispatcher (lines 41-117) *)

Definition max_retries : nat := 3.

(** A failure record, stamped at the moment it is built. *)
Definition failure (env : Env) (long_url user msg : string) : M URLResult :=
  do t <- datetime_now env;
  ret (mkURLResult long_url "" user (isoformat t) false msg).

(** [account.current_count += 1] *)
Definition count_use (a : Account) : Account :=
  set_current_count (current_count a + 1) a.

(** The loop [for attempt in range(max_retries)], from round [attempt] on with
    [remaining] rounds to go; [continue] is the next round. *)
Fixpoint shorten_attempts (env : Env) (long_url : string)
    (remaining attempt : nat) : M URLResult :=
  match remaining with
  | O => failure env long_url "" "Max retries exceeded"
  | S remaining' =>
      let continue := shorten_attempts env long_url remaining' (S attempt) in
      do r <- _get_available_account env;
      match r with
      | None => failure env long_url "" "No available accounts"
      | Some i =>
          do account <- account_at i;
          (* except Exception as e, lines 98-108 *)
          let except (msg : string) : M URLResult :=
            if attempt <? max_retries - 1 then continue
            else failure env long_url (username account) msg in
          do response <- requests_post env i (api_token account) long_url;
          match response with
          | Failed msg => except msg
          | Http status_code body =>
              if ((status_code =? 200) || (status_code =? 201))%Z then
                match body with
                | NotJson msg => except msg               (* line 68 raises *)
                | NoLink msg =>                           (* line 70 raises *)
                    update_account i count_use;; except msg
                | Link link =>
                    update_account i count_use;;          (* line 69 *)
                    do t <- datetime_now env;
                    ret (mkURLResult long_url link (username account)
                                     (isoformat t) true "")
                end
              else if (status_code =? 429)%Z then continue
              else
                let error_msg := "API Error: " ++ str_of_int status_code in
                if attempt <? max_retries - 1 then continue
                else failure env long_url (username account) error_msg
          end
      end
  end.

Definition shorten_url (env : Env) (long_url : string) : M URLResult :=
  shorten_attempts env long_url max_retries 0.

(** ** The bulk route (lines 213-251) *)

(** One element of ["results"]. *)
Record Entry := mkEntry {
  entry_success : bool;
  entry_original_url : string;
  entry_short_url : string;
  entry_account_used : string;
  entry_error : option string
}.

(** The JSON answers of the route. *)
Inductive Reply :=
  | ErrorReply (error : string) (status : Z)
  | BulkReply (total successful failed : Z) (results : list Entry).

(** Lines 227-229. *)
Definition normalize (url : string) : string :=
  let url := strip url in
  if negb (startswith url "http://" || startswith url "https://")
  then "https://" ++ url
  else url.

Definition entry_of (result : URLResult) : Entry :=
  mkEntry (success result) (original_url result) (short_url result)
          (account_used result)
          (if negb (success result) then Some (error_message result) else None).

(** [for url in urls], appending to [results]. *)
Fixpoint bulk_loop (env : Env) (urls : list string) (results : list Entry)
    : M (list Entry) :=
  match urls with
  | [] => ret results
  | url :: urls' =>
      do result <- shorten_url env (normalize url);
      bulk_loop env urls' (results ++ [entry_of result])
  end.

(** [str(e)] *)
Definition str_of_exn (e : exn) : string :=
  match e with IndexError => "list index out of range" end.

(** [shorten_bulk] on the list under ["urls"] of the request.  The module
    builds [api_manager] only from a non-empty [accounts], the very list the
    manager holds, so the guard of line 215 asks whether the pool is empty. *)
Definition shorten_bulk (env : Env) (urls : list string) (w : World)
    : Reply * World :=
  match accounts (manager w) with
  | [] => (ErrorReply "No accounts configured" 500, w)
  | _ =>
      match urls with
      | [] => (ErrorReply "URLs required" 400, w)
      | _ =>
          match bulk_loop env urls [] w with
          | (Ok results, w') =>
              let successful :=
                Z.of_nat (length (List.filter entry_success results)) in
              (BulkReply (Z.of_nat (length results)) successful
                         (Z.of_nat (length results) - successful) results, w')
          | (Raise e, w') => (ErrorReply (str_of_exn e) 500, w')
          end
      end
  end.

(** * Notions used in the statements *)

(** ** Views of the state *)

(** [self.accounts] *)
Definition pool (w : World) : list Account := accounts (manager w).

(** [self.current_account_index] *)
Definition cursor (w : World) : nat := current_account_index (manager w).

(** The calendar date shown by the [t]-th reading of the clock. *)
Definition today_at (env : Env) (t : nat) : string := strftime_ymd (now env t).

(** Lines 128-130 on one account, on a day [d]. *)
Definition lazy_reset (d : string) (a : Account) : Account :=
  if (last_reset a =? d)%string then a
  else set_last_reset d (set_current_count 0 a).

(** The slot that the cursor, started at [c] in a pool of [n], is on after
    [m] advances. *)
Definition slot (n c m : nat) : nat := (c + m) mod n.

(** The cursor points into the pool. *)
Definition cursor_ok (w : World) : Prop := cursor w < length (pool w).

(** ** Sweeps of the cursor *)

(** [swept env w k w']: [w'] is [w] after the cursor passed [k] accounts,
    each reset on the day read when the cursor was on it. *)
Record swept (env : Env) (w : World) (k : nat) (w' : World) : Prop := mkSwept {
  swept_length : length (pool w') = length (pool w);
  swept_cursor : cursor w' = slot (length (pool w)) (cursor w) k;
  swept_clock : clock_reads w' = clock_reads w + k;
  swept_log : upstream_log w' = upstream_log w;
  swept_base : base_url (manager w') = base_url (manager w);
  swept_passed : ∀ m, m < k →
    pool w' !! slot (length (pool w)) (cursor w) m =
    lazy_reset (today_at env (clock_reads w + m))
      <$> pool w !! slot (length (pool w)) (cursor w) m;
  swept_others : ∀ j,
    (∀ m, m < k → j ≠ slot (length (pool w)) (cursor w) m) →
    pool w' !! j = pool w !! j
}.

(** What line 132 says of the [m]-th account of a sweep from [w]. *)
Definition verdict (env : Env) (w : World) (m : nat) : option bool :=
  (λ a, usable (lazy_reset (today_at env (clock_reads w + m)) a))
    <$> pool w !! slot (length (pool w)) (cursor w) m.

(** The account passes line 132 whatever the reading of the clock at which
    the cursor comes to it. *)
Definition always_eligible (env : Env) (a : Account) : Prop :=
  ∀ t, usable (lazy_reset (today_at env t) a) = true.

(** Every account of the pool is eligible in that sense. *)
Definition all_eligible (env : Env) (w : World) : Prop :=
  ∀ a, a ∈ pool w → always_eligible env a.

(** The slots met in [n] advances of a cursor started at [c]. *)
Definition cycle_from (size c n : nat) : list nat := map (slot size c) (seq 0 n).

(** [n] calls of [_get_available_account] in a row, and their answers. *)
Fixpoint select_many (env : Env) (n : nat) : M (list (option nat)) :=
  match n with
  | O => ret []
  | S n' =>
      do r <- _get_available_account env;
      do rs <- select_many env n';
      ret (r :: rs)
  end.

(** [resets env a a']: [a'] is [a] after some lazy resets, each on a day
    shown by the clock. *)
Inductive resets (env : Env) : Account → Account → Prop :=
  | resets_refl a : resets env a a
  | resets_step a t a' :
      resets env (lazy_reset (today_at env t) a) a' → resets env a a'.

(** The accounts of [l'] are those of [l], slot by slot, after lazy resets
    only. *)
Definition pool_resets (env : Env) (l l' : list Account) : Prop :=
  length l' = length l
  ∧ ∀ j a, l !! j = Some a → ∃ a', l' !! j = Some a' ∧ resets env a a'.

(** ** One attempt of the dispatcher *)

(** The test of line 67. *)
Definition is_2xx (status_code : Z) : bool :=
  ((status_code =? 200) || (status_code =? 201))%Z.

(** The request of line 65 for a token. *)
Definition request_for (w : World) (token long_url : string) : Request :=
  mkRequest (base_url (manager w) ++ "/shorten") ("Bearer " ++ token)
            long_url "bit.ly".

(** The state after an upstream call has been made. *)
Definition log_call (c : Call) (w : World) : World :=
  mkWorld (manager w) (clock_reads w) (upstream_log w ++ [c]).

(** The state after line 69 on the account in slot [i]. *)
Definition use_account (i : nat) (w : World) : World :=
  mkWorld (mkManager (alter count_use i (pool w)) (cursor w)
                     (base_url (manager w)))
          (clock_reads w) (upstream_log w).

(** The state after one more reading of the clock. *)
Definition tick (w : World) : World :=
  mkWorld (manager w) (S (clock_reads w)) (upstream_log w).

(** The link of an answer that makes the call succeed. *)
Definition link_of (resp : Response) : option string :=
  match resp with
  | Http code (Link link) => if is_2xx code then Some link else None
  | _ => None
  end.

(** The message an answer leaves when it comes on the last attempt;
    [None] for the answers that only [continue]. *)
Definition terminal_message (resp : Response) : option string :=
  match resp with
  | Failed msg => Some msg
  | Http code body =>
      if is_2xx code then
        match body with
        | NotJson msg | NoLink msg => Some msg
        | Link _ => None
        end
      else if (code =? 429)%Z then None
      else Some ("API Error: " ++ str_of_int code)
  end.

(** The answers after which line 69 has run. *)
Definition counts_use (resp : Response) : bool :=
  match resp with
  | Http code (NoLink _ | Link _) => is_2xx code
  | _ => false
  end.

(** The state after the answer has been looked at. *)
Definition after_response (i : nat) (resp : Response) (w : World) : World :=
  if counts_use resp then use_account i w else w.

(** How a call with [rem] rounds to go ends: [calls] are the upstream calls
    it makes, [w'] the state it leaves and [res] the record it returns. *)
Inductive Outcome (w' : World) (rem : nat) (calls : list Call)
    (res : URLResult) : Prop :=
  | NoAccounts :
      length calls < rem →
      account_used res = "" → error_message res = "No available accounts" →
      success res = false → short_url res = "" →
      Outcome w' rem calls res
  | Exhausted :
      length calls = rem →
      (∀ c, last calls = Some c → ∃ body, call_response c = Http 429 body) →
      account_used res = "" → error_message res = "Max retries exceeded" →
      success res = false → short_url res = "" →
      Outcome w' rem calls res
  | Succeeded c link a :
      length calls ≤ rem →
      last calls = Some c → link_of (call_response c) = Some link →
      pool w' !! call_account c = Some a →
      account_used res = username a → short_url res = link →
      success res = true → error_message res = "" →
      Outcome w' rem calls res
  | GaveUp c msg a :
      length calls = rem →
      last calls = Some c → link_of (call_response c) = None →
      terminal_message (call_response c) = Some msg →
      pool w' !! call_account c = Some a →
      account_used res = username a → error_message res = msg →
      success res = false → short_url res = "" →
      Outcome w' rem calls res.

(** A 200 or 201 answer whose JSON has no link is not among the answers of
    the upstream. *)
Definition links_present (env : Env) : Prop :=
  ∀ n req code msg, post env n req = Http code (NoLink msg) → is_2xx code = false.

(** ** The bulk route, in the words of the specification *)

(** The words of the specification: [shorten_url] applied to each URL of the
    list on its own, in the order of the list, whatever the earlier outcomes
    were; the URL is normalized as the route does before it is dispatched. *)
Fixpoint shorten_each (env : Env) (urls : list string) : M (list URLResult) :=
  match urls with
  | [] => ret []
  | url :: urls' =>
      do result <- shorten_url env (normalize url);
      do results <- shorten_each env urls';
      ret (result :: results)
  end.

(** ** States a process can be in *)

(** The states of a process that built its manager from a non-empty list
    and has since called the pool and the dispatcher, whatever the clock and
    the upstream did. *)
Inductive reachable : World → Prop :=
  | reach_new accts t log :
      accts ≠ [] → reachable (mkWorld (new_manager accts) t log)
  | reach_select env w r w' :
      reachable w → _get_available_account env w = (r, w') → reachable w'
  | reach_shorten env url w r w' :
      reachable w → shorten_url env url w = (r, w') → reachable w'.

(** ** Sample pools and environments *)

Definition day1 : string := "2024-05-01".
Definition day2 : string := "2024-05-02".

(** A clock that stays on one day. *)
Definition steady_clock (d : string) : nat → Instant :=
  λ _, mkInstant d (d ++ "T12:00:00").

(** An upstream that gives the same answer to every call. *)
Definition upstream_always (resp : Response) : nat → Request → Response :=
  λ _ _, resp.

Definition alice : Account := mkAccount "alice" "pw-a" "token-a" 5 0 day2.
(* out of quota today *)
Definition bob : Account := mkAccount "bob" "pw-b" "token-b" 5 5 day2.
(* last used yesterday, and without a token *)
Definition carol : Account := mkAccount "carol" "pw-c" "" 5 7 day1.
Definition dave : Account := mkAccount "dave" "pw-d" "token-d" 1000 12 day1.
Definition erin : Account := mkAccount "erin" "pw-e" "token-e" 10 9 day2.

(** A process that has just built its manager. *)
Definition world_of (accts : list Account) : World :=
  mkWorld (new_manager accts) 0 [].

(** An upstream that answers 429 to every call. *)
Definition env_429 : Env :=
  mkEnv (steady_clock day2) (upstream_always (Http 429 (NotJson ""))).

(** An upstream that answers 500 to every call. *)
Definition env_500 : Env :=
  mkEnv (steady_clock day2) (upstream_always (Http 500 (NotJson ""))).

(** An upstream that answers 200 with a JSON object without the key
    ['link']. *)
Definition env_no_link : Env :=
  mkEnv (steady_clock day2) (upstream_always (Http 200 (NoLink "'link'"))).

(** An upstream that answers 200 with a body that is not JSON. *)
Definition env_not_json : Env :=
  mkEnv (steady_clock day2)
        (upstream_always (Http 200 (NotJson "Expecting value"))).

(** * The rest of the module *)

(** ** The single-URL route (lines 185-211) *)

(** The JSON answers of [shorten]; the answer to a dispatched URL has the
    keys of an element of ["results"]. *)
Inductive SingleReply :=
  | SingleError (error : string) (status : Z)
  | SingleOk (entry : Entry).

(** [shorten] on a request whose JSON body is an object; [url_field] is what
    is under ["url"], a string when the key is there.  The guard of line 187
    is that of line 215. *)
Definition shorten (env : Env) (url_field : option string) (w : World)
    : SingleReply * World :=
  match accounts (manager w) with
  | [] => (SingleError "No accounts configured" 500, w)
  | _ =>
      let url := strip (default "" url_field) in
      if negb (truthy url) then (SingleError "URL is required" 400, w)
      else
        let url :=
          if negb (startswith url "http://" || startswith url "https://")
          then "https://" ++ url
          else url in
        match shorten_url env url w with
        | (Ok result, w') => (SingleOk (entry_of result), w')
        | (Raise e, w') => (SingleError (str_of_exn e) 500, w')
        end
  end.

(** ** Loading the accounts (lines 137-170) *)

(** A row of [csv.DictReader] for a line with no fewer fields than the
    header: the cell under each column name. *)
Abbreviation Row := (gmap string string).

(** What [open] and the reader give: no file, or the rows read before the
    end of the file ([complete]) or before an exception of the reader. *)
Inductive CsvFile :=
  | Missing
  | Table (rows : list Row) (complete : bool).

(** Truth value of what [row.get(key)] gives. *)
Definition truthy_cell (cell : option string) : bool :=
  match cell with Some s => truthy s | None => false end.

(** [a or b] *)
Definition py_or (a b : option string) : option string :=
  if truthy_cell a then a else b.

(** [int(row.get(key, default))], for the built-in [int] of the interpreter
    on a [str], which gives nothing where it raises. *)
Definition int_cell (int : string → option Z) (cell : option string)
    (default : Z) : option Z :=
  match cell with
  | Some s => int s
  | None => Some default
  end.

(** What the body of the loop (lines 144-157) does with a row. *)
Inductive RowOutcome :=
  | Skipped                (* no username or no token: nothing is appended *)
  | Loaded (a : Account)   (* the account is appended *)
  | Invalid.               (* [int] raises *)

Definition account_of_row (int : string → option Z) (row : Row) : RowOutcome :=
  let username :=
    py_or (py_or (py_or (row !! "username") (row !! "email"))
                 (row !! "Username")) (row !! "Email") in
  let password := py_or (row !! "password") (row !! "Password") in
  let api_token :=
    py_or (py_or (py_or (row !! "api_token") (row !! "token"))
                 (row !! "API Token")) (row !! "Token") in
  if truthy_cell username && truthy_cell api_token then
    match int_cell int (row !! "daily_limit") 1000 with
    | None => Invalid
    | Some limit =>
        match int_cell int (row !! "current_count") 0 with
        | None => Invalid
        | Some count =>
            Loaded (mkAccount
                      (strip (default "" username))
                      (if truthy_cell password
                       then strip (default "" password) else "")
                      (strip (default "" api_token))
                      limit count
                      (default "" (row !! "last_reset")))
        end
    end
  else Skipped.

(** [for row in reader], appending to [accounts]; nothing when an exception
    leaves the loop. *)
Fixpoint load_rows (int : string → option Z) (rows : list Row)
    (accounts : list Account) : option (list Account) :=
  match rows with
  | [] => Some accounts
  | row :: rows' =>
      match account_of_row int row with
      | Skipped => load_rows int rows' accounts
      | Loaded a => load_rows int rows' (accounts ++ [a])
      | Invalid => None
      end
  end.

(** Both [except] clauses return the empty list. *)
Definition load_accounts_from_csv (int : string → option Z) (file : CsvFile)
    : list Account :=
  match file with
  | Missing => []
  | Table rows complete =>
      match load_rows int rows [] with
      | Some accounts => if complete then accounts else []
      | None => []
      end
  end.

(** The process once the module is loaded (lines 169-170): without accounts
    there is no manager, which the routes see as an empty pool. *)
Definition startup (int : string → option Z) (file : CsvFile) : World :=
  world_of (load_accounts_from_csv int file).

(** ** Notions used in the further statements *)

(** What no operation of the manager assigns. *)
Definition identity (a : Account) : string * string * string * Z :=
  (username a, password a, api_token a, daily_limit a).

(** The counter is within the daily limit. *)
Definition within_quota (a : Account) : Prop :=
  (0 ≤ daily_limit a ∧ current_count a ≤ daily_limit a)%Z.

(** The request of a call is the one of line 65 for the account in its slot,
    which has a token. *)
Definition call_for (accts : list Account) (base url : string) (c : Call)
    : Prop :=
  ∃ a, accts !! call_account c = Some a
       ∧ truthy (api_token a) = true
       ∧ call_request c
         = mkRequest (base ++ "/shorten") ("Bearer " ++ api_token a) url
                     "bit.ly".

(** The state a call of [shorten_url] starts from and the state it leaves:
    the accounts are the same but for counters and dates, and the calls made
    are those of line 65 with the token of a usable account. *)
Definition served (url : string) (w w' : World) : Prop :=
  length (pool w') = length (pool w)
  ∧ map identity (pool w') = map identity (pool w)
  ∧ base_url (manager w') = base_url (manager w)
  ∧ ∃ calls,
      upstream_log w' = (upstream_log w ++ calls)%list
      ∧ Forall (call_for (pool w) (base_url (manager w)) url) calls.

(** The rows the loader keeps, in the order of the file. *)
Definition loaded_accounts (int : string → option Z) (rows : list Row)
    : list Account :=
  omap (λ row, match account_of_row int row with
               | Loaded a => Some a
               | _ => None
               end) rows.

(** [int] on an optional sign and decimal digits, for the samples. *)
Definition digit_value (c : ascii) : option Z :=
  let n := nat_of_ascii c in
  if (48 <=? n) && (n <=? 57) then Some (Z.of_nat (n - 48)) else None.

Fixpoint digits_value (s : string) (acc : Z) : option Z :=
  match s with
  | EmptyString => Some acc
  | String c s' =>
      match digit_value c with
      | Some d => digits_value s' (10 * acc + d)
      | None => None
      end
  end.

Definition int_decimal (s : string) : option Z :=
  match s with
  | EmptyString => None
  | String "-" (String c s') => Z.opp <$> digits_value (String c s') 0
  | _ => digits_value s 0
  end.

(** The cells line 144 and line 146 settle on. *)
Definition username_cell (row : Row) : option string :=
  py_or (py_or (py_or (row !! "username") (row !! "email"))
               (row !! "Username")) (row !! "Email").

Definition token_cell (row : Row) : option string :=
  py_or (py_or (py_or (row !! "api_token") (row !! "token"))
               (row !! "API Token")) (row !! "Token").

(** Sample rows: a full one, one under the other column names and without
    the optional columns, one without a token, one whose limit is not a
    number. *)
Definition row_full : Row :=
  {[ "username" := " alice "; "password" := "pw-a"; "api_token" := "token-a";
     "daily_limit" := "5"; "current_count" := "2"; "last_reset" := day1 ]}.

Definition row_aliases : Row :=
  {[ "username" := ""; "Email" := "bob@example.org"; "Token" := " token-b" ]}.

Definition row_no_token : Row :=
  {[ "username" := "carol"; "daily_limit" := "many" ]}.

Definition row_bad_limit : Row :=
  {[ "username" := "dave"; "api_token" := "token-d"; "daily_limit" := "" ]}.

(** The cursor of a given state is in its pool: by computation. *)
Ltac cursor_in_pool := unfold cursor_ok, cursor, pool; simpl; lia.

(** * Properties *)

(** ** Arithmetic of the cursor *)

Lemma slot_cases n c m :
  c < n → m ≤ n → slot n c m = if c + m <? n then c + m else c + m - n.
Proof.
  intros Hc Hm. unfold slot.
  destruct (Nat.ltb_spec (c + m) n) as [Hlt | Hge].
  - now apply Nat.mod_small.
  - transitivity ((c + m - n + 1 * n) mod n); [f_equal; lia |].
    rewrite Nat.Div0.mod_add. apply Nat.mod_small. lia.
Qed.

Lemma slot_lt n c m : 0 < n → slot n c m < n.
Proof. intros Hn. unfold slot. apply Nat.mod_upper_bound. lia. Qed.

Lemma slot_0 n c : c < n → slot n c 0 = c.
Proof. intros Hc. rewrite slot_cases by lia. destruct (Nat.ltb_spec (c + 0) n); lia. Qed.

Lemma slot_full n c : c < n → slot n c n = c.
Proof. intros Hc. rewrite slot_cases by lia. destruct (Nat.ltb_spec (c + n) n); lia. Qed.

Lemma slot_succ n c m : slot n (slot n c 1) m = slot n c (S m).
Proof. unfold slot. rewrite Nat.Div0.add_mod_idemp_l. f_equal. lia. Qed.

Lemma slot_slot n c a b : slot n (slot n c a) b = slot n c (a + b).
Proof. unfold slot. rewrite Nat.Div0.add_mod_idemp_l. f_equal. lia. Qed.

Lemma slot_add_size n c m : slot n c (m + n) = slot n c m.
Proof.
  unfold slot. replace (c + (m + n)) with (c + m + 1 * n) by lia.
  apply Nat.Div0.mod_add.
Qed.

Lemma slot_inj n c m1 m2 :
  c < n → m1 < n → m2 < n → slot n c m1 = slot n c m2 → m1 = m2.
Proof.
  intros Hc H1 H2. rewrite !slot_cases by lia.
  destruct (Nat.ltb_spec (c + m1) n), (Nat.ltb_spec (c + m2) n); lia.
Qed.

Lemma slot_surj n c j : c < n → j < n → ∃ m, m < n ∧ slot n c m = j.
Proof.
  intros Hc Hj. destruct (le_lt_dec c j) as [Hle | Hgt].
  - exists (j - c). split; [lia |]. rewrite slot_cases by lia.
    destruct (Nat.ltb_spec (c + (j - c)) n); lia.
  - exists (n + j - c). split; [lia |]. rewrite slot_cases by lia.
    destruct (Nat.ltb_spec (c + (n + j - c)) n); lia.
Qed.

(** ** One examination *)

Lemma lazy_reset_stale d a :
  last_reset a ≠ d →
  current_count (lazy_reset d a) = 0%Z ∧ last_reset (lazy_reset d a) = d.
Proof.
  intros Hne. unfold lazy_reset.
  destruct (String.eqb_spec (last_reset a) d); [contradiction | now split].
Qed.

Lemma lazy_reset_fresh d a : last_reset a = d → lazy_reset d a = a.
Proof. intros He. unfold lazy_reset. now rewrite (proj2 (String.eqb_eq _ _) He). Qed.

Lemma lazy_reset_fixed d a :
  username (lazy_reset d a) = username a
  ∧ api_token (lazy_reset d a) = api_token a
  ∧ daily_limit (lazy_reset d a) = daily_limit a
  ∧ last_reset (lazy_reset d a) = d.
Proof.
  unfold lazy_reset. destruct (String.eqb_spec (last_reset a) d); simpl; auto.
Qed.

Lemma alter_as_insert {A} (f : A → A) (l : list A) i a :
  l !! i = Some a → alter f i l = <[i := f a]> l.
Proof.
  intros Ha. rewrite list_insert_alter.
  apply list_alter_ext; [| reflexivity].
  intros x Hx. congruence.
Qed.

(** The round in closed form: the account under the cursor is reset if its
    day is over, the cursor moves on, the clock is read once. *)
Lemma examine_spec env w :
  examine env w =
  match pool w !! cursor w with
  | None => (Raise IndexError, w)
  | Some a =>
      let a' := lazy_reset (today_at env (clock_reads w)) a in
      (Ok (if usable a' then Some (cursor w) else None),
       mkWorld (mkManager (<[cursor w := a']> (pool w))
                          (slot (length (pool w)) (cursor w) 1)
                          (base_url (manager w)))
               (S (clock_reads w)) (upstream_log w))
  end.
Proof.
  unfold examine, bind, get_index, get_accounts, account_at, set_index,
    with_manager, datetime_now, update_account, ret, pool, cursor, today_at,
    lazy_reset, slot.
  destruct w as [[accts c base] t log]; simpl.
  destruct (accts !! c) as [a |] eqn:Ha; [| reflexivity]. simpl.
  assert (Hc : c < length accts) by (apply lookup_lt_is_Some; eauto).
  destruct (String.eqb_spec (last_reset a) (strftime_ymd (now env t)));
    simpl.
  - rewrite Ha. rewrite (list_insert_id _ _ _ Ha).
    destruct (usable a); reflexivity.
  - rewrite list_alter_alter_eq.
    rewrite (list_lookup_alter_eq _ accts c), Ha. simpl.
    rewrite (alter_as_insert _ _ _ _ Ha). simpl.
    match goal with |- context [usable ?x] => destruct (usable x) end;
      reflexivity.
Qed.

(** ** A sweep of the cursor *)

Lemma swept_0 env w : cursor_ok w → swept env w 0 w.
Proof.
  intros Hc. split; auto; try lia.
  now rewrite slot_0.
Qed.

Lemma swept_trans env w w1 k w' :
  cursor_ok w → S k ≤ length (pool w) →
  swept env w 1 w1 → swept env w1 k w' → swept env w (S k) w'.
Proof.
  intros Hc Hk [L1 C1 T1 G1 B1 P1 O1] [L2 C2 T2 G2 B2 P2 O2].
  unfold cursor_ok in Hc.
  rewrite L1, C1, T1 in *.
  assert (Hs : ∀ m, m < k →
    slot (length (pool w)) (slot (length (pool w)) (cursor w) 1) m
    = slot (length (pool w)) (cursor w) (S m)).
  { intros m Hm. apply slot_succ. }
  split; try congruence.
  - rewrite C2. destruct (decide (k = 0)) as [-> | Hk0].
    + rewrite slot_0; [reflexivity | apply slot_lt; lia].
    + unfold slot. rewrite Nat.Div0.add_mod_idemp_l. f_equal. lia.
  - lia.
  - intros [| m] Hm.
    + rewrite O2; [apply P1; lia |].
      intros m' Hm'. rewrite Hs by lia. intros Heq.
      apply slot_inj in Heq; lia.
    + rewrite <- Hs by lia. rewrite P2 by lia. rewrite Hs by lia.
      rewrite O1.
      * replace (clock_reads w + 1 + m) with (clock_reads w + S m) by lia.
        reflexivity.
      * intros m' Hm'. assert (m' = 0) as -> by lia. intros Heq.
        apply slot_inj in Heq; lia.
  - intros j Hj. rewrite O2, O1; [reflexivity | |].
    + intros m Hm. apply Hj. lia.
    + intros m Hm. rewrite Hs by lia. apply Hj. lia.
Qed.

Lemma swept_examine env w a :
  pool w !! cursor w = Some a →
  swept env w 1
    (mkWorld (mkManager
                (<[cursor w := lazy_reset (today_at env (clock_reads w)) a]> (pool w))
                (slot (length (pool w)) (cursor w) 1)
                (base_url (manager w)))
             (S (clock_reads w)) (upstream_log w)).
Proof.
  intros Ha.
  assert (Hc : cursor w < length (pool w)) by (apply lookup_lt_is_Some; eauto).
  split; unfold pool, cursor in *; simpl; auto.
  - apply length_insert.
  - lia.
  - intros m Hm. assert (m = 0) as -> by lia.
    fold (pool w) (cursor w). rewrite slot_0 by exact Hc.
    rewrite Nat.add_0_r. unfold pool, cursor.
    rewrite list_lookup_insert_eq by exact Hc. now rewrite Ha.
  - intros j Hj. apply list_lookup_insert_ne.
    specialize (Hj 0 ltac:(lia)).
    fold (pool w) (cursor w) in Hj. rewrite slot_0 in Hj by exact Hc.
    unfold cursor in Hj. congruence.
Qed.

Lemma swept_cursor_ok env w k w' : cursor_ok w → swept env w k w' → cursor_ok w'.
Proof.
  intros Hc Hsw. unfold cursor_ok in *.
  rewrite (swept_length _ _ _ _ Hsw), (swept_cursor _ _ _ _ Hsw).
  apply slot_lt. lia.
Qed.

Lemma swept_at env w k w' j a :
  cursor_ok w → k ≤ length (pool w) → swept env w k w' →
  pool w !! j = Some a →
  pool w' !! j = Some a
  ∨ ∃ t, pool w' !! j = Some (lazy_reset (today_at env t) a).
Proof.
  intros Hc Hk Hsw Ha. unfold cursor_ok in Hc.
  assert (Hj : j < length (pool w)) by (apply lookup_lt_is_Some; eauto).
  destruct (slot_surj _ _ j Hc Hj) as (m0 & Hm0 & Hs).
  destruct (le_lt_dec k m0) as [Hle | Hlt].
  - left. rewrite (swept_others _ _ _ _ Hsw); [exact Ha |].
    intros m Hm Heq. rewrite <- Hs in Heq. apply slot_inj in Heq; lia.
  - right. exists (clock_reads w + m0). rewrite <- Hs.
    rewrite (swept_passed _ _ _ _ Hsw) by exact Hlt. rewrite Hs, Ha.
    reflexivity.
Qed.

(** The loop of [_get_available_account], run for [n] rounds: it passes [k]
    accounts, turns down all but possibly the last, and answers the last one
    or, after [n] refusals, nothing. *)
Lemma select_loop_spec env n w :
  cursor_ok w → n ≤ length (pool w) →
  ∃ k r w',
    select_loop env n w = (Ok r, w')
    ∧ k ≤ n
    ∧ swept env w k w'
    ∧ match r with
      | None => k = n ∧ ∀ m, m < k → verdict env w m = Some false
      | Some i =>
          1 ≤ k ∧ i = slot (length (pool w)) (cursor w) (k - 1)
          ∧ verdict env w (k - 1) = Some true
          ∧ ∀ m, m < k - 1 → verdict env w m = Some false
      end.
Proof.
  revert w. induction n as [| n IH]; intros w Hc Hn.
  - exists 0, None, w. split; [reflexivity |]. split; [lia |].
    split; [now apply swept_0 |]. split; [reflexivity | intros m Hm; lia].
  - simpl. unfold bind. rewrite examine_spec.
    destruct (pool w !! cursor w) as [a |] eqn:Ha.
    2: { apply lookup_ge_None in Ha. unfold cursor_ok in Hc. lia. }
    pose proof (swept_examine env w a Ha) as Hsw. cbv zeta.
    assert (Hv0 : verdict env w 0
                  = Some (usable (lazy_reset (today_at env (clock_reads w)) a))).
    { unfold verdict. rewrite slot_0 by exact Hc. rewrite Ha, Nat.add_0_r.
      reflexivity. }
    destruct (usable (lazy_reset (today_at env (clock_reads w)) a)) eqn:Hu.
    + eexists 1, (Some (cursor w)), _. split; [reflexivity |].
      split; [lia |]. split; [exact Hsw |]. simpl.
      split; [lia |]. split; [now rewrite slot_0 |].
      split; [exact Hv0 | intros m Hm; lia].
    + set (w1 := mkWorld _ _ _) in *.
      assert (Hc1 : cursor_ok w1).
      { unfold cursor_ok. rewrite (swept_length _ _ _ _ Hsw).
        rewrite (swept_cursor _ _ _ _ Hsw). apply slot_lt.
        unfold cursor_ok in Hc. lia. }
      assert (Hn1 : n ≤ length (pool w1)).
      { rewrite (swept_length _ _ _ _ Hsw). lia. }
      destruct (IH w1 Hc1 Hn1) as (k & r & w' & Hrun & Hk & Hsw' & Hr).
      assert (Hv : ∀ m, m < n → verdict env w1 m = verdict env w (S m)).
      { intros m Hm. unfold verdict.
        rewrite (swept_length _ _ _ _ Hsw), (swept_cursor _ _ _ _ Hsw),
          (swept_clock _ _ _ _ Hsw).
        unfold cursor_ok in Hc. rewrite slot_succ.
        rewrite (swept_others _ _ _ _ Hsw).
        - replace (clock_reads w + 1 + m) with (clock_reads w + S m) by lia.
          reflexivity.
        - intros m' Hm'. assert (m' = 0) as -> by lia. intros Heq.
          apply slot_inj in Heq; lia. }
      exists (S k), r, w'. split; [exact Hrun |]. split; [lia |].
      split; [eapply swept_trans; eauto; lia |].
      destruct r as [i |].
      * destruct Hr as (Hk1 & Hi & Hlast & Hrej).
        replace (S k - 1) with (S (k - 1)) by lia.
        split; [lia |]. split; [| split].
        -- rewrite Hi, (swept_length _ _ _ _ Hsw), (swept_cursor _ _ _ _ Hsw).
           apply slot_succ.
        -- rewrite <- Hv by lia. exact Hlast.
        -- intros [| m] Hm; [exact Hv0 |]. rewrite <- Hv by lia.
           apply Hrej. lia.
      * destruct Hr as (-> & Hrej). split; [reflexivity |].
        intros [| m] Hm; [exact Hv0 |]. rewrite <- Hv by lia.
        apply Hrej. lia.
Qed.

(** ** [_get_available_account] *)

Lemma select_empty env w :
  pool w = [] → _get_available_account env w = (Ok None, w).
Proof.
  intros He. unfold _get_available_account, bind, get_accounts.
  fold (pool w). now rewrite He.
Qed.

Lemma select_unfold env w :
  pool w ≠ [] →
  _get_available_account env w = select_loop env (length (pool w)) w.
Proof.
  intros Hne. unfold _get_available_account, bind, get_accounts.
  fold (pool w). destruct (pool w); [contradiction | reflexivity].
Qed.

Lemma cursor_ok_nonempty w : cursor_ok w → pool w ≠ [].
Proof. unfold cursor_ok. intros Hc He. rewrite He in Hc. simpl in Hc. lia. Qed.

(** The whole selection: [k] accounts are passed, the first [k - 1] turned
    down, and the [k]-th answered unless all [length (pool w)] were refused. *)
Lemma select_spec env w :
  cursor_ok w →
  ∃ k r w',
    _get_available_account env w = (Ok r, w')
    ∧ k ≤ length (pool w)
    ∧ swept env w k w'
    ∧ match r with
      | None => k = length (pool w) ∧ ∀ m, m < k → verdict env w m = Some false
      | Some i =>
          1 ≤ k ∧ i = slot (length (pool w)) (cursor w) (k - 1)
          ∧ verdict env w (k - 1) = Some true
          ∧ ∀ m, m < k - 1 → verdict env w m = Some false
      end.
Proof.
  intros Hc. rewrite select_unfold by now apply cursor_ok_nonempty.
  now apply select_loop_spec.
Qed.

(** A selection that answers an account started with the cursor in the pool. *)
Lemma select_Some_cursor_ok env w i w' :
  _get_available_account env w = (Ok (Some i), w') → cursor_ok w.
Proof.
  intros Hrun. destruct (pool w) as [| a0 l] eqn:Hp.
  - rewrite select_empty in Hrun by exact Hp. discriminate.
  - rewrite select_unfold in Hrun by (rewrite Hp; discriminate).
    rewrite Hp in Hrun. simpl in Hrun. unfold bind in Hrun.
    rewrite examine_spec in Hrun.
    destruct (pool w !! cursor w) eqn:Ha; [| discriminate].
    unfold cursor_ok. apply lookup_lt_is_Some. eauto.
Qed.

Lemma select_Ok_cursor_ok env w r w' :
  pool w ≠ [] → _get_available_account env w = (Ok r, w') → cursor_ok w.
Proof.
  intros Hne Hrun. rewrite select_unfold in Hrun by exact Hne.
  destruct (pool w) as [| a0 l] eqn:Hp; [contradiction |].
  simpl in Hrun. unfold bind in Hrun. rewrite examine_spec in Hrun.
  destruct (pool w !! cursor w) eqn:Ha; [| discriminate].
  unfold cursor_ok. rewrite Hp in Ha. rewrite Hp.
  apply lookup_lt_is_Some. eauto.
Qed.

(** A selection never calls the upstream. *)
Lemma select_keeps_log env w r w' :
  _get_available_account env w = (Ok r, w') →
  upstream_log w' = upstream_log w.
Proof.
  intros Hrun. destruct (pool w) as [| a0 l] eqn:Hp.
  - rewrite select_empty in Hrun by exact Hp. congruence.
  - assert (Hne : pool w ≠ []) by (rewrite Hp; discriminate).
    pose proof (select_Ok_cursor_ok env w r w' Hne Hrun) as Hc.
    destruct (select_spec env w Hc) as (k & r0 & w0 & Hrun0 & _ & Hsw & _).
    rewrite Hrun in Hrun0. injection Hrun0 as -> ->.
    apply (swept_log _ _ _ _ Hsw).
Qed.

Lemma select_Some_lookup env w k i w' :
  swept env w k w' → 1 ≤ k →
  i = slot (length (pool w)) (cursor w) (k - 1) →
  verdict env w (k - 1) = Some true →
  ∃ a, pool w' !! i = Some a ∧ usable a = true.
Proof.
  intros Hsw Hk -> Hv. unfold verdict in Hv.
  rewrite (swept_passed _ _ _ _ Hsw) by lia.
  destruct (pool w !! slot (length (pool w)) (cursor w) (k - 1)) as [a |];
    [| discriminate].
  simpl in *. eexists. split; [reflexivity | congruence].
Qed.

(** When the account under the cursor is eligible it is the one answered,
    and the cursor moves one step. *)
Lemma select_first env w a :
  pool w !! cursor w = Some a →
  usable (lazy_reset (today_at env (clock_reads w)) a) = true →
  ∃ w', _get_available_account env w = (Ok (Some (cursor w)), w')
        ∧ swept env w 1 w'.
Proof.
  intros Ha Hu.
  assert (Hc : cursor_ok w) by (apply lookup_lt_is_Some; eauto).
  rewrite select_unfold by now apply cursor_ok_nonempty.
  destruct (length (pool w)) as [| n] eqn:Hn; [unfold cursor_ok in Hc; lia |].
  simpl. unfold bind. rewrite examine_spec, Ha. cbv zeta. rewrite Hu.
  eexists. split; [reflexivity |]. now apply swept_examine.
Qed.

(** A selection answers nothing exactly when the pool is empty or every
    account is turned down at line 132. *)
Lemma select_None_iff env w :
  cursor_ok w ∨ pool w = [] →
  (∃ w', _get_available_account env w = (Ok None, w'))
  ↔ ∀ m, m < length (pool w) → verdict env w m = Some false.
Proof.
  intros [Hc | He].
  - destruct (select_spec env w Hc) as (k & r & w' & Hrun & Hk & Hsw & Hr).
    split.
    + intros (w0 & Hrun0). rewrite Hrun in Hrun0. injection Hrun0 as -> ->.
      destruct Hr as (-> & Hrej). exact Hrej.
    + intros Hrej. destruct r as [i |]; [| eauto].
      destruct Hr as (Hk1 & _ & Hv & _). rewrite Hrej in Hv by lia.
      discriminate.
  - split; [| rewrite select_empty by exact He; eauto].
    intros _ m Hm. rewrite He in Hm. simpl in Hm. lia.
Qed.

(** ** Eligibility *)

Lemma always_eligible_reset env a t :
  always_eligible env a → always_eligible env (lazy_reset (today_at env t) a).
Proof.
  intros He t'. pose proof (He t) as H1. pose proof (He t') as H2.
  unfold lazy_reset in *.
  destruct (String.eqb_spec (last_reset a) (today_at env t)) as [E1 | N1].
  - exact H2.
  - simpl.
    destruct (String.eqb_spec (today_at env t) (today_at env t')) as [E2 | N2].
    + exact H1.
    + unfold usable in *. simpl in *. exact H1.
Qed.

(** On a day that does not change, an account that passes line 132 today
    is eligible whenever the cursor comes to it. *)
Lemma eligible_today_always env today a :
  (∀ t, today_at env t = today) →
  usable (lazy_reset today a) = true → always_eligible env a.
Proof. intros Hday Hu t. now rewrite Hday. Qed.

Lemma swept_always_eligible env w k w' j a :
  cursor_ok w → k ≤ length (pool w) → swept env w k w' →
  pool w !! j = Some a → always_eligible env a →
  ∃ a', pool w' !! j = Some a' ∧ always_eligible env a'.
Proof.
  intros Hc Hk Hsw Ha He.
  destruct (swept_at env w k w' j a Hc Hk Hsw Ha) as [H | [t H]];
    eauto using always_eligible_reset.
Qed.

Lemma swept_all_eligible env w k w' :
  cursor_ok w → k ≤ length (pool w) → swept env w k w' →
  all_eligible env w → all_eligible env w'.
Proof.
  intros Hc Hk Hsw Hall a' Hin.
  apply list_elem_of_lookup in Hin as [j Hj].
  assert (Hlt : j < length (pool w)).
  { rewrite <- (swept_length _ _ _ _ Hsw). apply lookup_lt_is_Some. eauto. }
  apply lookup_lt_is_Some in Hlt as [a Ha].
  assert (He : always_eligible env a).
  { apply Hall. apply list_elem_of_lookup. eauto. }
  destruct (swept_always_eligible env w k w' j a Hc Hk Hsw Ha He)
    as (a2 & Ha2 & He2).
  congruence.
Qed.

(** A pool that holds an account eligible whenever the cursor comes answers
    an account. *)
Lemma select_of_eligible env w j a :
  cursor_ok w → pool w !! j = Some a → always_eligible env a →
  ∃ k i w',
    _get_available_account env w = (Ok (Some i), w')
    ∧ 1 ≤ k ≤ length (pool w) ∧ swept env w k w'
    ∧ i = slot (length (pool w)) (cursor w) (k - 1)
    ∧ verdict env w (k - 1) = Some true
    ∧ ∀ m, m < k - 1 → verdict env w m = Some false.
Proof.
  intros Hc Ha He.
  destruct (select_spec env w Hc) as (k & r & w' & Hrun & Hk & Hsw & Hr).
  destruct r as [i |].
  - destruct Hr as (Hk1 & Hi & Hv & Hrej).
    exists k, i, w'. split; [exact Hrun |]. split; [lia |]. auto.
  - exfalso. destruct Hr as (-> & Hrej).
    assert (Hj : j < length (pool w)) by (apply lookup_lt_is_Some; eauto).
    destruct (slot_surj _ _ j Hc Hj) as (m0 & Hm0 & Hs).
    specialize (Hrej m0 Hm0). unfold verdict in Hrej.
    rewrite Hs, Ha in Hrej. simpl in Hrej. rewrite He in Hrej. discriminate.
Qed.

Lemma select_all_eligible env w :
  cursor_ok w → all_eligible env w →
  ∃ w', _get_available_account env w = (Ok (Some (cursor w)), w')
        ∧ swept env w 1 w' ∧ cursor_ok w' ∧ all_eligible env w'.
Proof.
  intros Hc Hall.
  destruct (lookup_lt_is_Some_2 (pool w) (cursor w) Hc) as [a Ha].
  assert (He : always_eligible env a).
  { apply Hall. apply list_elem_of_lookup. eauto. }
  destruct (select_first env w a Ha (He _)) as (w' & Hrun & Hsw).
  exists w'. split; [exact Hrun |]. split; [exact Hsw |].
  split; [eapply swept_cursor_ok; eauto |].
  apply (swept_all_eligible env w 1 w' Hc);
    [unfold cursor_ok in Hc; lia | exact Hsw | exact Hall].
Qed.

(** With two eligible accounts in the pool, two selections in a row, with
    nothing in between, answer different accounts. *)
Lemma back_to_back_differ env w i1 w1 i2 w2 j1 j2 a1 a2 :
  _get_available_account env w = (Ok (Some i1), w1) →
  _get_available_account env w1 = (Ok (Some i2), w2) →
  j1 ≠ j2 →
  pool w !! j1 = Some a1 → always_eligible env a1 →
  pool w !! j2 = Some a2 → always_eligible env a2 →
  i1 ≠ i2.
Proof.
  intros Hrun1 Hrun2 Hne Ha1 He1 Ha2 He2 Heq. subst i2.
  pose proof (select_Some_cursor_ok env w i1 w1 Hrun1) as Hc.
  destruct (select_spec env w Hc) as (k1 & r & w0 & Hr & Hk1 & Hsw1 & Hres1).
  rewrite Hrun1 in Hr. injection Hr as <- <-.
  destruct Hres1 as (Hk1' & Hi1 & _ & _).
  pose proof (swept_cursor_ok _ _ _ _ Hc Hsw1) as Hc1.
  destruct (select_spec env w1 Hc1) as (k2 & r & w0 & Hr & Hk2 & Hsw2 & Hres2).
  rewrite Hrun2 in Hr. injection Hr as <- <-.
  destruct Hres2 as (Hk2' & Hi2 & _ & Hrej).
  assert (Hother : ∃ j a, j ≠ i1 ∧ pool w !! j = Some a ∧ always_eligible env a).
  { destruct (decide (j1 = i1)) as [-> | Hj1]; [exists j2, a2 | exists j1, a1];
      auto. }
  destruct Hother as (j & a & Hj & Ha & He).
  destruct (swept_always_eligible env w k1 w1 j a Hc Hk1 Hsw1 Ha He)
    as (a' & Ha' & He').
  pose proof (swept_length _ _ _ _ Hsw1) as Hlen.
  unfold cursor_ok in Hc, Hc1. rewrite Hlen in *.
  set (n := length (pool w)) in *.
  assert (Hback : slot n (cursor w1) (n - 1) = i1).
  { rewrite (swept_cursor _ _ _ _ Hsw1). fold n. rewrite slot_slot, Hi1.
    replace (k1 + (n - 1)) with (k1 - 1 + n) by lia. apply slot_add_size. }
  assert (Hk2n : k2 - 1 = n - 1).
  { apply (slot_inj n (cursor w1)); [lia | lia | lia | congruence]. }
  assert (Hjn : j < n).
  { rewrite <- Hlen. apply lookup_lt_is_Some. eauto. }
  destruct (slot_surj n (cursor w1) j Hc1 Hjn) as (m0 & Hm0 & Hs).
  assert (Hm0' : m0 < k2 - 1).
  { destruct (decide (m0 = n - 1)) as [-> | Hd]; [congruence | lia]. }
  specialize (Hrej m0 Hm0'). unfold verdict in Hrej. rewrite Hlen in Hrej.
  fold n in Hrej. rewrite Hs, Ha' in Hrej. simpl in Hrej.
  rewrite He' in Hrej. discriminate.
Qed.

(** ** One attempt of [shorten_url] *)

Lemma failure_run env url user msg w :
  failure env url user msg w =
  (Ok (mkURLResult url "" user (isoformat (now env (clock_reads w))) false msg),
   tick w).
Proof. reflexivity. Qed.

Lemma shorten_attempts_0 env url att w :
  shorten_attempts env url 0 att w =
  failure env url "" "Max retries exceeded" w.
Proof. reflexivity. Qed.

(** A round of the retry loop, by the answer of the pool and of the upstream. *)
Lemma shorten_attempts_S env url rem att w :
  shorten_attempts env url (S rem) att w =
  match _get_available_account env w with
  | (Raise e, w1) => (Raise e, w1)
  | (Ok None, w1) => failure env url "" "No available accounts" w1
  | (Ok (Some i), w1) =>
      match pool w1 !! i with
      | None => (Raise IndexError, w1)
      | Some account =>
          let req := request_for w1 (api_token account) url in
          let resp := post env (length (upstream_log w1)) req in
          let w2 := after_response i resp (log_call (mkCall i req resp) w1) in
          match link_of resp with
          | Some link =>
              (Ok (mkURLResult url link (username account)
                               (isoformat (now env (clock_reads w2))) true ""),
               tick w2)
          | None =>
              match terminal_message resp with
              | Some msg =>
                  if att <? max_retries - 1
                  then shorten_attempts env url rem (S att) w2
                  else failure env url (username account) msg w2
              | None => shorten_attempts env url rem (S att) w2
              end
          end
      end
  end.
Proof.
  cbn [shorten_attempts]. unfold bind at 1.
  destruct (_get_available_account env w) as [[[i |] | e] w1]; try reflexivity.
  unfold bind at 1, account_at at 1. fold (pool w1).
  destruct (pool w1 !! i) as [account |]; [| reflexivity].
  unfold bind at 1, requests_post at 1. cbv zeta.
  fold (request_for w1 (api_token account) url).
  set (req := request_for w1 (api_token account) url).
  set (resp := post env (length (upstream_log w1)) req).
  fold (log_call (mkCall i req resp) w1).
  unfold after_response, link_of, terminal_message, counts_use.
  destruct (att <? max_retries - 1);
    (destruct resp as [msg | code body]; [reflexivity |]);
    change ((code =? 200)%Z || (code =? 201)%Z) with (is_2xx code);
    destruct body, (is_2xx code); try reflexivity;
    destruct (code =? 429)%Z; reflexivity.
Qed.

Lemma terminal_none_429 resp :
  link_of resp = None → terminal_message resp = None →
  ∃ body, resp = Http 429 body.
Proof.
  destruct resp as [msg | code body]; simpl; [discriminate |].
  destruct (is_2xx code).
  - destruct body; discriminate.
  - destruct (Z.eqb_spec code 429) as [-> | Hne]; [eauto | discriminate].
Qed.

(** Line 69 touches one counter and nothing else. *)
Lemma after_response_frame i resp w :
  length (pool (after_response i resp w)) = length (pool w)
  ∧ cursor (after_response i resp w) = cursor w
  ∧ clock_reads (after_response i resp w) = clock_reads w
  ∧ upstream_log (after_response i resp w) = upstream_log w
  ∧ base_url (manager (after_response i resp w)) = base_url (manager w)
  ∧ map username (pool (after_response i resp w)) = map username (pool w).
Proof.
  unfold after_response. destruct (counts_use resp); [| now repeat split].
  unfold use_account, pool, cursor; simpl. repeat split; try reflexivity.
  - apply length_alter.
  - generalize (accounts (manager w)) as l. clear. intros l. revert i.
    induction l as [| a l IH]; intros [| i]; simpl; f_equal; auto.
    apply IH.
Qed.

Lemma username_at (l l' : list Account) i a :
  map username l' = map username l → l !! i = Some a →
  ∃ a', l' !! i = Some a' ∧ username a' = username a.
Proof.
  intros Hm Ha.
  assert (H : map username l' !! i = Some (username a)).
  { rewrite Hm, list_lookup_fmap, Ha. reflexivity. }
  rewrite list_lookup_fmap in H.
  destruct (l' !! i) as [a' |]; [| discriminate].
  exists a'. split; [reflexivity | now injection H].
Qed.

Lemma counts_use_cases resp :
  counts_use resp = true →
  (∃ link, link_of resp = Some link)
  ∨ (∃ code msg, resp = Http code (NoLink msg) ∧ is_2xx code = true).
Proof.
  destruct resp as [msg | code [msg | msg | link]]; simpl; try discriminate.
  - intros H. right. eauto.
  - intros ->. left. eauto.
Qed.

Lemma link_of_counts_use resp link :
  link_of resp = Some link → counts_use resp = true.
Proof.
  destruct resp as [msg | code [msg | msg | l]]; simpl; try discriminate.
  destruct (is_2xx code); [reflexivity | discriminate].
Qed.

Lemma response_500 body :
  link_of (Http 500 body) = None
  ∧ terminal_message (Http 500 body) = Some "API Error: 500"
  ∧ counts_use (Http 500 body) = false.
Proof. destruct body; repeat split; reflexivity. Qed.

(** ** The outcomes of [shorten_url] *)

Lemma outcome_cons w' rem c0 calls res :
  Outcome w' rem calls res →
  (rem = 0 → ∃ body, call_response c0 = Http 429 body) →
  Outcome w' (S rem) (c0 :: calls) res.
Proof.
  intros [Hl Hu He Hs Hk | Hl Hlast Hu He Hs Hk
          | c link a Hl Hlast Hlink Ha Hu Hk Hs He
          | c msg a Hl Hlast Hlink Hmsg Ha Hu He Hs Hk] H0.
  - apply NoAccounts; simpl; auto. lia.
  - apply Exhausted; simpl; auto.
    intros c Hc. rewrite last_cons in Hc.
    destruct (last calls) as [c' |] eqn:Hc'.
    + apply Hlast. congruence.
    + apply last_None in Hc'. subst calls. simpl in Hl.
      injection Hc as <-. apply H0. lia.
  - apply (Succeeded _ _ _ _ c link a); simpl; auto; [lia |].
    rewrite last_cons, Hlast. reflexivity.
  - apply (GaveUp _ _ _ _ c msg a); simpl; auto.
    rewrite last_cons, Hlast. reflexivity.
Qed.

(** Every run of the retry loop from a state with the cursor in the pool
    ends, without an exception, in one of the four outcomes. *)
Lemma shorten_attempts_outcome env url rem :
  ∀ att w, cursor_ok w → att + rem = max_retries →
  ∃ res w' calls,
    shorten_attempts env url rem att w = (Ok res, w')
    ∧ upstream_log w' = (upstream_log w ++ calls)%list
    ∧ cursor_ok w'
    ∧ length (pool w') = length (pool w)
    ∧ original_url res = url
    ∧ Outcome w' rem calls res.
Proof.
  induction rem as [| rem IH]; intros att w Hc Hatt.
  - rewrite shorten_attempts_0, failure_run.
    eexists _, (tick w), []. split; [reflexivity |].
    rewrite app_nil_r. repeat split; auto.
    apply Exhausted; auto. intros c Hlast. discriminate.
  - rewrite shorten_attempts_S.
    destruct (select_spec env w Hc) as (k & r & w1 & Hrun & Hk & Hsw & Hr).
    rewrite Hrun.
    pose proof (swept_cursor_ok _ _ _ _ Hc Hsw) as Hc1.
    pose proof (swept_length _ _ _ _ Hsw) as Hl1.
    pose proof (swept_log _ _ _ _ Hsw) as Hg1.
    destruct r as [i |].
    2: { rewrite failure_run. eexists _, (tick w1), [].
         split; [reflexivity |]. rewrite app_nil_r.
         repeat split; auto. apply NoAccounts; simpl; auto. lia. }
    destruct Hr as (Hk1 & Hi & Hv & _).
    destruct (select_Some_lookup env w k i w1 Hsw Hk1 Hi Hv) as (a1 & Ha1 & _).
    rewrite Ha1. cbv zeta.
    set (req := request_for w1 (api_token a1) url).
    set (resp := post env (length (upstream_log w1)) req).
    set (c0 := mkCall i req resp).
    set (w2 := after_response i resp (log_call c0 w1)).
    destruct (after_response_frame i resp (log_call c0 w1))
      as (Hl2 & Hcur2 & _ & Hg2 & _ & Hn2).
    fold w2 in Hl2, Hcur2, Hg2, Hn2.
    assert (Hc2 : cursor_ok w2).
    { unfold cursor_ok. rewrite Hl2, Hcur2. exact Hc1. }
    assert (Hlog2 : upstream_log w2 = (upstream_log w ++ [c0])%list).
    { rewrite Hg2. simpl. now rewrite Hg1. }
    destruct (username_at _ _ i a1 Hn2 Ha1) as (a2 & Ha2 & Hu2).
    assert (Hlen2 : length (pool w2) = length (pool w)).
    { rewrite Hl2. exact Hl1. }
    assert (Hcont : ∀ att', att' + rem = max_retries →
      (rem = 0 → ∃ body, resp = Http 429 body) →
      ∃ res w' calls,
        shorten_attempts env url rem att' w2 = (Ok res, w')
        ∧ upstream_log w' = (upstream_log w ++ calls)%list
        ∧ cursor_ok w'
        ∧ length (pool w') = length (pool w)
        ∧ original_url res = url
        ∧ Outcome w' (S rem) calls res).
    { intros att' Hatt' H0.
      destruct (IH att' w2 Hc2 Hatt') as (res & w' & calls & Hr' & Hg' & Hc' & Hl' & Ho & Hout).
      exists res, w', (c0 :: calls). split; [exact Hr' |].
      split; [rewrite Hg', Hlog2, <- app_assoc; reflexivity |].
      split; [exact Hc' |]. split; [congruence |]. split; [exact Ho |].
      apply outcome_cons; assumption. }
    destruct (link_of resp) as [link |] eqn:Hlink.
    + eexists _, (tick w2), [c0]. split; [reflexivity |].
      split; [exact Hlog2 |]. split; [exact Hc2 |]. split; [exact Hlen2 |].
      split; [reflexivity |].
      apply (Succeeded _ _ _ _ c0 link a2); simpl; auto. lia.
    + destruct (terminal_message resp) as [msg |] eqn:Hmsg.
      * destruct (Nat.ltb_spec att (max_retries - 1)) as [Hlt | Hge].
        -- apply Hcont; unfold max_retries in *; lia.
        -- rewrite failure_run.
           eexists _, (tick w2), [c0]. split; [reflexivity |].
           split; [exact Hlog2 |]. split; [exact Hc2 |].
           split; [exact Hlen2 |]. split; [reflexivity |].
           apply (GaveUp _ _ _ _ c0 msg a2); simpl; auto.
           unfold max_retries in *. lia.
      * apply Hcont; [lia |]. intros _.
        now apply terminal_none_429.
Qed.

Lemma shorten_url_outcome env url w :
  cursor_ok w →
  ∃ res w' calls,
    shorten_url env url w = (Ok res, w')
    ∧ upstream_log w' = (upstream_log w ++ calls)%list
    ∧ cursor_ok w'
    ∧ length (pool w') = length (pool w)
    ∧ original_url res = url
    ∧ Outcome w' max_retries calls res.
Proof. intros Hc. now apply shorten_attempts_outcome. Qed.

(** The dispatcher on a manager without accounts. *)
Lemma shorten_url_empty_pool env url w :
  pool w = [] →
  shorten_url env url w =
    (Ok (mkURLResult url "" "" (isoformat (now env (clock_reads w))) false
                     "No available accounts"),
     tick w).
Proof.
  intros He. unfold shorten_url, max_retries.
  rewrite shorten_attempts_S, (select_empty env w He). apply failure_run.
Qed.

(** ** Reachable states *)

Lemma reachable_cursor_ok w : reachable w → cursor_ok w.
Proof.
  induction 1 as [accts t log Hne | env w r w' Hw IH Hrun
                  | env url w r w' Hw IH Hrun].
  - unfold cursor_ok, cursor, pool. simpl.
    destruct accts; [contradiction | simpl; lia].
  - destruct (select_spec env w IH) as (k & r0 & w0 & Hrun0 & _ & Hsw & _).
    rewrite Hrun in Hrun0. injection Hrun0 as -> ->.
    eapply swept_cursor_ok; eauto.
  - destruct (shorten_url_outcome env url w IH)
      as (res & w0 & calls & Hrun0 & _ & Hc & _).
    rewrite Hrun in Hrun0. now injection Hrun0 as -> ->.
Qed.

(** ** The usage counter under well-formed answers *)

Lemma resets_trans env a b c : resets env a b → resets env b c → resets env a c.
Proof. induction 1; [auto | intros; eapply resets_step; eauto]. Qed.

Lemma pool_resets_refl env l : pool_resets env l l.
Proof. split; [reflexivity |]. intros j a Ha. eauto using resets_refl. Qed.

Lemma pool_resets_trans env l1 l2 l3 :
  pool_resets env l1 l2 → pool_resets env l2 l3 → pool_resets env l1 l3.
Proof.
  intros [L1 H1] [L2 H2]. split; [congruence |].
  intros j a Ha. destruct (H1 j a Ha) as (b & Hb & Hab).
  destruct (H2 j b Hb) as (c & Hc & Hbc). eauto using resets_trans.
Qed.

Lemma swept_pool_resets env w k w' :
  cursor_ok w → k ≤ length (pool w) → swept env w k w' →
  pool_resets env (pool w) (pool w').
Proof.
  intros Hc Hk Hsw. split; [apply (swept_length _ _ _ _ Hsw) |].
  intros j a Ha.
  destruct (swept_at env w k w' j a Hc Hk Hsw Ha) as [H | [t H]].
  - eauto using resets_refl.
  - eexists. split; [exact H |]. eapply resets_step, resets_refl.
Qed.

(** What [shorten_url] does to the counters when every 200 or 201 answer
    with a JSON body carries a link: a failure leaves each account as it
    was, up to lazy resets; a success does so too, but for one more use
    counted on the account it names. *)
Lemma shorten_attempts_counters env url rem :
  links_present env →
  ∀ att w, cursor_ok w → att + rem = max_retries →
  ∃ res w' l,
    shorten_attempts env url rem att w = (Ok res, w')
    ∧ pool_resets env (pool w) l
    ∧ if success res
      then ∃ i a, l !! i = Some a ∧ account_used res = username a
                  ∧ pool w' = alter count_use i l
      else pool w' = l.
Proof.
  intros Hlinks. induction rem as [| rem IH]; intros att w Hc Hatt.
  - rewrite shorten_attempts_0, failure_run.
    eexists _, _, (pool w). split; [reflexivity |].
    split; [apply pool_resets_refl | reflexivity].
  - rewrite shorten_attempts_S.
    destruct (select_spec env w Hc) as (k & r & w1 & Hrun & Hk & Hsw & Hr).
    rewrite Hrun.
    pose proof (swept_pool_resets env w k w1 Hc Hk Hsw) as Hres1.
    pose proof (swept_cursor_ok _ _ _ _ Hc Hsw) as Hc1.
    destruct r as [i |].
    2: { rewrite failure_run. eexists _, _, (pool w1).
         split; [reflexivity |]. split; [exact Hres1 | reflexivity]. }
    destruct Hr as (Hk1 & Hi & Hv & _).
    destruct (select_Some_lookup env w k i w1 Hsw Hk1 Hi Hv) as (a1 & Ha1 & _).
    rewrite Ha1. cbv zeta.
    set (req := request_for w1 (api_token a1) url).
    set (resp := post env (length (upstream_log w1)) req).
    set (c0 := mkCall i req resp).
    destruct (link_of resp) as [link |] eqn:Hlink.
    + unfold after_response. rewrite (link_of_counts_use resp link Hlink).
      eexists _, _, (pool w1). split; [reflexivity |].
      split; [exact Hres1 |]. simpl. exists i, a1. auto.
    + assert (Hcnt : counts_use resp = false).
      { destruct (counts_use resp) eqn:Hcu; [| reflexivity].
        destruct (counts_use_cases resp Hcu) as [[l Hl] | (code & msg & Hr & H2)].
        - congruence.
        - unfold resp in Hr. apply Hlinks in Hr. congruence. }
      unfold after_response. rewrite Hcnt.
      assert (Hcont : ∀ att', att' + rem = max_retries →
        ∃ res w' l,
          shorten_attempts env url rem att' (log_call c0 w1) = (Ok res, w')
          ∧ pool_resets env (pool w) l
          ∧ if success res
            then ∃ i a, l !! i = Some a ∧ account_used res = username a
                        ∧ pool w' = alter count_use i l
            else pool w' = l).
      { intros att' Hatt'.
        destruct (IH att' (log_call c0 w1) Hc1 Hatt')
          as (res & w' & l & Hr' & Hres' & Hfin).
        exists res, w', l. split; [exact Hr' |].
        split; [eapply pool_resets_trans; eauto | exact Hfin]. }
      destruct (terminal_message resp) as [msg |].
      * destruct (Nat.ltb_spec att (max_retries - 1)) as [Hlt | Hge].
        -- apply Hcont. unfold max_retries in *. lia.
        -- rewrite failure_run. eexists _, _, (pool w1).
           split; [reflexivity |]. split; [exact Hres1 | reflexivity].
      * apply Hcont. lia.
Qed.

Lemma shorten_url_counters env url w :
  links_present env → cursor_ok w →
  ∃ res w' l,
    shorten_url env url w = (Ok res, w')
    ∧ pool_resets env (pool w) l
    ∧ if success res
      then ∃ i a, l !! i = Some a ∧ account_used res = username a
                  ∧ pool w' = alter count_use i l
      else pool w' = l.
Proof. intros Hl Hc. now apply shorten_attempts_counters. Qed.

(** ** The claims on the account pool *)

Lemma cycle_from_S size c n :
  cycle_from size c (S n) = slot size c 0 :: cycle_from size (slot size c 1) n.
Proof.
  unfold cycle_from. simpl. f_equal.
  rewrite <- seq_shift, map_map. apply map_ext. intros m.
  symmetry. apply slot_succ.
Qed.

Lemma cycle_from_perm size c :
  c < size → cycle_from size c size ≡ₚ seq 0 size.
Proof.
  intros Hc. apply NoDup_Permutation.
  - unfold cycle_from. apply NoDup_fmap_2_strong; [| apply NoDup_seq].
    intros m1 m2 H1 H2. rewrite !elem_of_seq in *.
    apply slot_inj; lia.
  - apply NoDup_seq.
  - intros j. unfold cycle_from. rewrite list_elem_of_fmap, elem_of_seq.
    split.
    + intros (m & -> & _). pose proof (slot_lt size c m). lia.
    + intros [_ Hj]. destruct (slot_surj size c j Hc) as (m & Hm & Hs); [lia |].
      exists m. rewrite elem_of_seq. split; [congruence | lia].
Qed.

Lemma select_many_spec env n :
  ∀ w, cursor_ok w → all_eligible env w →
  ∃ w', select_many env n w
        = (Ok (map Some (cycle_from (length (pool w)) (cursor w) n)), w').
Proof.
  induction n as [| n IH]; intros w Hc Hall.
  - exists w. reflexivity.
  - destruct (select_all_eligible env w Hc Hall) as (w1 & Hrun & Hsw & Hc1 & Hall1).
    destruct (IH w1 Hc1 Hall1) as (w' & Hmany).
    exists w'. cbn [select_many]. unfold bind at 1. rewrite Hrun.
    unfold bind at 1. rewrite Hmany.
    rewrite (swept_length _ _ _ _ Hsw), (swept_cursor _ _ _ _ Hsw).
    rewrite cycle_from_S, slot_0 by exact Hc. reflexivity.
Qed.

(** C4. In a pool whose accounts are all eligible whenever the cursor comes
    to them, as many selections in a row as there are accounts answer the
    slots in cyclic order from the cursor, each slot once; and with more
    than one account two selections in a row answer different accounts. *)
Theorem round_robin env w :
  cursor_ok w →
  all_eligible env w →
  (∃ w', select_many env (length (pool w)) w
         = (Ok (map Some (cycle_from (length (pool w)) (cursor w)
                                     (length (pool w)))), w'))
  ∧ cycle_from (length (pool w)) (cursor w) (length (pool w))
    ≡ₚ seq 0 (length (pool w))
  ∧ (1 < length (pool w) →
     ∃ i1 w1 i2 w2,
       _get_available_account env w = (Ok (Some i1), w1)
       ∧ _get_available_account env w1 = (Ok (Some i2), w2)
       ∧ i1 ≠ i2).
Proof.
  intros Hc Hall. split; [now apply select_many_spec |].
  split; [now apply cycle_from_perm |].
  intros Hn.
  destruct (select_all_eligible env w Hc Hall) as (w1 & Hrun & Hsw & Hc1 & Hall1).
  destruct (select_all_eligible env w1 Hc1 Hall1) as (w2 & Hrun2 & _).
  exists (cursor w), w1, (cursor w1), w2.
  split; [exact Hrun |]. split; [exact Hrun2 |].
  rewrite (swept_cursor _ _ _ _ Hsw). unfold cursor_ok in Hc.
  rewrite <- (slot_0 (length (pool w)) (cursor w) Hc) at 1.
  intros Heq. apply slot_inj in Heq; lia.
Qed.

Lemma round_robin_witness :
  (∃ w', select_many (mkEnv (steady_clock day2) (upstream_always (Failed ""))) 3
           (mkWorld (mkManager [alice; dave; erin] 1 "") 0 [])
         = (Ok (map Some (cycle_from 3 1 3)), w'))
  ∧ cycle_from 3 1 3 ≡ₚ seq 0 3
  ∧ (1 < 3 →
     ∃ i1 w1 i2 w2,
       _get_available_account
         (mkEnv (steady_clock day2) (upstream_always (Failed "")))
         (mkWorld (mkManager [alice; dave; erin] 1 "") 0 [])
       = (Ok (Some i1), w1)
       ∧ _get_available_account
           (mkEnv (steady_clock day2) (upstream_always (Failed ""))) w1
         = (Ok (Some i2), w2)
       ∧ i1 ≠ i2).
Proof.
  apply (round_robin (mkEnv (steady_clock day2) (upstream_always (Failed "")))
                     (mkWorld (mkManager [alice; dave; erin] 1 "") 0 [])).
  - cursor_in_pool.
  - intros a Ha. apply list_elem_of_In in Ha. simpl in Ha.
    destruct Ha as [<- | [<- | [<- | []]]]; intros t; reflexivity.
Defined.

(** C7. A selection returns after passing [k] accounts, those from the
    cursor on; every one of them whose [last_reset] is not the date read when
    the cursor is on it has, after the call, [current_count] 0 and that date
    as [last_reset], whether it is the account answered (the last one passed)
    or not. *)
Theorem lazy_reset_when_passed env w :
  cursor_ok w →
  ∃ r w' k,
    _get_available_account env w = (Ok r, w')
    ∧ k ≤ length (pool w)
    ∧ cursor w' = slot (length (pool w)) (cursor w) k
    ∧ match r with
      | Some i => 1 ≤ k ∧ i = slot (length (pool w)) (cursor w) (k - 1)
      | None => k = length (pool w)
      end
    ∧ ∀ m a,
        m < k →
        pool w !! slot (length (pool w)) (cursor w) m = Some a →
        last_reset a ≠ today_at env (clock_reads w + m) →
        ∃ a',
          pool w' !! slot (length (pool w)) (cursor w) m = Some a'
          ∧ current_count a' = 0%Z
          ∧ last_reset a' = today_at env (clock_reads w + m).
Proof.
  intros Hc.
  destruct (select_spec env w Hc) as (k & r & w' & Hrun & Hk & Hsw & Hr).
  exists r, w', k. split; [exact Hrun |].
  split; [exact Hk |]. split; [apply (swept_cursor _ _ _ _ Hsw) |].
  split.
  - destruct r as [i |]; [destruct Hr as (? & ? & _); auto | apply Hr].
  - intros m a Hm Ha Hstale.
    exists (lazy_reset (today_at env (clock_reads w + m)) a).
    split; [rewrite (swept_passed _ _ _ _ Hsw) by exact Hm; now rewrite Ha |].
    now apply lazy_reset_stale.
Qed.

Lemma lazy_reset_when_passed_witness :
  ∃ r w' k,
    _get_available_account
      (mkEnv (steady_clock day2) (upstream_always (Failed "")))
      (world_of [carol; alice]) = (Ok r, w')
    ∧ k ≤ 2
    ∧ cursor w' = slot 2 0 k
    ∧ match r with
      | Some i => 1 ≤ k ∧ i = slot 2 0 (k - 1)
      | None => k = 2
      end
    ∧ ∀ m a,
        m < k →
        [carol; alice] !! slot 2 0 m = Some a →
        last_reset a ≠ day2 →
        ∃ a',
          pool w' !! slot 2 0 m = Some a'
          ∧ current_count a' = 0%Z
          ∧ last_reset a' = day2.
Proof.
  apply (lazy_reset_when_passed
           (mkEnv (steady_clock day2) (upstream_always (Failed "")))
           (world_of [carol; alice])).
  cursor_in_pool.
Defined.

(** C8. While the clock shows [today], a selection does not answer an
    account whose [current_count] equals its [daily_limit] and whose
    [last_reset] is [today]; when an account with a full counter is answered,
    its [last_reset] was another day and the call has reset it. *)
Theorem exhausted_today_not_selected env w today i a r w' :
  (∀ m, m < length (pool w) → today_at env (clock_reads w + m) = today) →
  pool w !! i = Some a →
  current_count a = daily_limit a →
  _get_available_account env w = (r, w') →
  (last_reset a = today → r ≠ Ok (Some i))
  ∧ (r = Ok (Some i) →
     last_reset a ≠ today
     ∧ ∃ a', pool w' !! i = Some a'
             ∧ current_count a' = 0%Z ∧ last_reset a' = today).
Proof.
  intros Hday Ha Hfull Hrun.
  assert (Hsel : r = Ok (Some i) →
    pool w' !! i = Some (lazy_reset today a)
    ∧ usable (lazy_reset today a) = true).
  { intros ->.
    pose proof (select_Some_cursor_ok env w i w' Hrun) as Hc.
    destruct (select_spec env w Hc) as (k & r0 & w0 & Hrun0 & Hk & Hsw & Hr).
    rewrite Hrun in Hrun0. injection Hrun0 as <- <-.
    destruct Hr as (Hk1 & Hi & Hv & _).
    unfold verdict in Hv. rewrite <- Hi, Ha, Hday in Hv by lia.
    simpl in Hv. split; [| congruence].
    rewrite Hi, (swept_passed _ _ _ _ Hsw) by lia.
    rewrite <- Hi, Ha, Hday by lia. reflexivity. }
  assert (Hstale : r = Ok (Some i) → last_reset a ≠ today).
  { intros Hr Hfresh. destruct (Hsel Hr) as (_ & Hu).
    rewrite (lazy_reset_fresh _ _ Hfresh) in Hu. unfold usable in Hu.
    rewrite Hfull, Z.ltb_irrefl in Hu. discriminate. }
  split.
  - intros Hfresh Hr. now apply (Hstale Hr).
  - intros Hr. split; [now apply Hstale |].
    exists (lazy_reset today a). split; [apply (Hsel Hr) |].
    apply lazy_reset_stale. now apply Hstale.
Qed.

Lemma exhausted_today_not_selected_witness :
  (last_reset bob = day2 →
   fst (_get_available_account
          (mkEnv (steady_clock day2) (upstream_always (Failed "")))
          (world_of [bob; alice])) ≠ Ok (Some 0))
  ∧ (fst (_get_available_account
            (mkEnv (steady_clock day2) (upstream_always (Failed "")))
            (world_of [bob; alice])) = Ok (Some 0) →
     last_reset bob ≠ day2
     ∧ ∃ a', pool (snd (_get_available_account
                          (mkEnv (steady_clock day2)
                                 (upstream_always (Failed "")))
                          (world_of [bob; alice]))) !! 0 = Some a'
             ∧ current_count a' = 0%Z ∧ last_reset a' = day2).
Proof.
  apply (exhausted_today_not_selected
           (mkEnv (steady_clock day2) (upstream_always (Failed "")))
           (world_of [bob; alice]) day2 0 bob).
  - intros m Hm. reflexivity.
  - reflexivity.
  - reflexivity.
  - reflexivity.
Defined.

(** C10. In every state a process with a non-empty pool can reach (the
    manager as built, then any calls of the pool and of [shorten_url]), the
    cursor is below the size of the pool, so that the lookup of line 124
    finds an account: neither a selection nor [shorten_url] raises, and both
    leave the cursor below the size of the pool.  A selection that answers
    nothing has advanced the cursor once per account of the pool and leaves
    it where it started. *)
Theorem cursor_in_bounds w :
  reachable w →
  cursor w < length (pool w)
  ∧ is_Some (pool w !! cursor w)
  ∧ (∀ env, ∃ r w',
       _get_available_account env w = (Ok r, w')
       ∧ cursor w' < length (pool w')
       ∧ (r = None →
          cursor w' = cursor w
          ∧ clock_reads w' = clock_reads w + length (pool w)))
  ∧ (∀ env url, ∃ res w',
       shorten_url env url w = (Ok res, w')
       ∧ cursor w' < length (pool w')).
Proof.
  intros Hw. pose proof (reachable_cursor_ok w Hw) as Hc.
  split; [exact Hc |]. split; [now apply lookup_lt_is_Some |]. split.
  - intros env.
    destruct (select_spec env w Hc) as (k & r & w' & Hrun & _ & Hsw & Hr).
    exists r, w'. split; [exact Hrun |].
    split; [exact (swept_cursor_ok _ _ _ _ Hc Hsw) |].
    intros ->. destruct Hr as (-> & _).
    rewrite (swept_cursor _ _ _ _ Hsw), (swept_clock _ _ _ _ Hsw).
    split; [now apply slot_full | reflexivity].
  - intros env url.
    destruct (shorten_url_outcome env url w Hc)
      as (res & w' & calls & Hrun & _ & Hc' & _).
    exists res, w'. split; [exact Hrun | exact Hc'].
Qed.

Lemma cursor_in_bounds_witness :
  cursor (world_of [bob; carol]) < length (pool (world_of [bob; carol]))
  ∧ is_Some (pool (world_of [bob; carol]) !! cursor (world_of [bob; carol]))
  ∧ (∀ env, ∃ r w',
       _get_available_account env (world_of [bob; carol]) = (Ok r, w')
       ∧ cursor w' < length (pool w')
       ∧ (r = None →
          cursor w' = cursor (world_of [bob; carol])
          ∧ clock_reads w'
            = clock_reads (world_of [bob; carol])
              + length (pool (world_of [bob; carol]))))
  ∧ (∀ env url, ∃ res w',
       shorten_url env url (world_of [bob; carol]) = (Ok res, w')
       ∧ cursor w' < length (pool w')).
Proof.
  apply (cursor_in_bounds (world_of [bob; carol])).
  apply reach_new. discriminate.
Defined.

(** ** The claims on the dispatcher *)

(** C1 does not hold of the code.  With an upstream that answers 200 and a
    JSON object without a link the call fails, and the counter of the one
    account, which was reset today, has gone from 0 to 3: line 69 runs
    before line 70 raises, in each of the three rounds.  With a body that is
    not JSON, where line 68 raises, the same call leaves the counter at 0. *)
Theorem usage_counted_on_failed_call :
  current_count alice = 0%Z ∧ last_reset alice = day2
  ∧ (∃ res w',
       shorten_url env_no_link "https://example.com" (world_of [alice])
       = (Ok res, w')
       ∧ success res = false
       ∧ error_message res = "'link'"
       ∧ account_used res = "alice"
       ∧ pool w' = [set_current_count 3 alice])
  ∧ (∃ res w',
       shorten_url env_not_json "https://example.com" (world_of [alice])
       = (Ok res, w')
       ∧ success res = false
       ∧ error_message res = "Expecting value"
       ∧ account_used res = "alice"
       ∧ pool w' = [alice]).
Proof.
  split; [reflexivity |]. split; [reflexivity |]. split.
  - do 2 eexists. split; [vm_compute; reflexivity |].
    repeat split; reflexivity.
  - do 2 eexists. split; [vm_compute; reflexivity |].
    repeat split; reflexivity.
Qed.

(** C2, as stated, fails: when the third attempt is answered 429 the message
    is "Max retries exceeded" and no account is named, while a 500 on the
    third attempt gives "API Error: 500" and names the account. *)
Lemma rate_limited_message_counterexample :
  (∃ res w' c1 c2 c3,
     shorten_url env_429 "https://example.com" (world_of [alice]) = (Ok res, w')
     ∧ upstream_log w' = [c1; c2; c3]
     ∧ call_response c3 = Http 429 (NotJson "")
     ∧ error_message res = "Max retries exceeded"
     ∧ error_message res ≠ "API Error: " ++ str_of_int 429
     ∧ account_used res = "")
  ∧ (∃ res w',
       shorten_url env_500 "https://example.com" (world_of [alice]) = (Ok res, w')
       ∧ error_message res = "API Error: " ++ str_of_int 500
       ∧ account_used res = "alice").
Proof.
  split.
  - do 5 eexists. split; [vm_compute; reflexivity |].
    repeat split; try reflexivity. discriminate.
  - do 2 eexists. split; [vm_compute; reflexivity |]. split; reflexivity.
Qed.

(** C2, amended. [shorten_url] returns, and when it has made its three
    upstream calls and the third was answered 429, the record is a failure
    with the message "Max retries exceeded" and no account; any other status
    outside 200 and 201 on the third call gives the message "API Error: "
    followed by the status, and the account of that call. *)
Theorem rate_limited_on_last_attempt env url w :
  cursor_ok w →
  ∃ res w' calls,
    shorten_url env url w = (Ok res, w')
    ∧ upstream_log w' = (upstream_log w ++ calls)%list
    ∧ ∀ c1 c2 c3,
        calls = [c1; c2; c3] →
        (∀ body, call_response c3 = Http 429 body →
           success res = false
           ∧ error_message res = "Max retries exceeded"
           ∧ account_used res = ""
           ∧ short_url res = "")
        ∧ (∀ code body,
             call_response c3 = Http code body →
             is_2xx code = false → code ≠ 429%Z →
             success res = false
             ∧ error_message res = "API Error: " ++ str_of_int code
             ∧ ∃ a, pool w' !! call_account c3 = Some a
                    ∧ account_used res = username a).
Proof.
  intros Hc.
  destruct (shorten_url_outcome env url w Hc)
    as (res & w' & calls & Hrun & Hlog & _ & _ & _ & Hout).
  exists res, w', calls. split; [exact Hrun |]. split; [exact Hlog |].
  intros c1 c2 c3 ->. split.
  - intros body Hresp.
    destruct Hout as [Hl | Hl Hlast Hu He Hs Hk
                      | c link a Hl Hlast Hlink
                      | c msg a Hl Hlast Hlink Hmsg].
    + simpl in Hl. unfold max_retries in Hl. lia.
    + auto.
    + simpl in Hlast. injection Hlast as <-. rewrite Hresp in Hlink.
      simpl in Hlink. destruct body; discriminate.
    + simpl in Hlast. injection Hlast as <-. rewrite Hresp in Hmsg.
      simpl in Hmsg. discriminate.
  - intros code body Hresp H2xx H429.
    assert (Hterm : terminal_message (call_response c3)
                    = Some ("API Error: " ++ str_of_int code)).
    { rewrite Hresp. simpl. rewrite H2xx.
      destruct (Z.eqb_spec code 429); [contradiction | reflexivity]. }
    destruct Hout as [Hl | Hl Hlast Hu He Hs Hk
                      | c link a Hl Hlast Hlink
                      | c msg a Hl Hlast Hlink Hmsg Ha Hu He Hs Hk].
    + simpl in Hl. unfold max_retries in Hl. lia.
    + destruct (Hlast c3 eq_refl) as [body' Hb]. congruence.
    + simpl in Hlast. injection Hlast as <-. rewrite Hresp in Hlink.
      simpl in Hlink. rewrite H2xx in Hlink. destruct body; discriminate.
    + simpl in Hlast. injection Hlast as <-.
      split; [exact Hs |]. split; [congruence | eauto].
Qed.

Lemma rate_limited_on_last_attempt_witness :
  ∃ res w' calls,
    shorten_url env_429 "https://example.com" (world_of [alice]) = (Ok res, w')
    ∧ upstream_log w' = (upstream_log (world_of [alice]) ++ calls)%list
    ∧ ∀ c1 c2 c3,
        calls = [c1; c2; c3] →
        (∀ body, call_response c3 = Http 429 body →
           success res = false
           ∧ error_message res = "Max retries exceeded"
           ∧ account_used res = ""
           ∧ short_url res = "")
        ∧ (∀ code body,
             call_response c3 = Http code body →
             is_2xx code = false → code ≠ 429%Z →
             success res = false
             ∧ error_message res = "API Error: " ++ str_of_int code
             ∧ ∃ a, pool w' !! call_account c3 = Some a
                    ∧ account_used res = username a).
Proof.
  apply (rate_limited_on_last_attempt env_429 "https://example.com"
           (world_of [alice])).
  cursor_in_pool.
Defined.

(** C3, as stated, fails: here the pool answers an account in each of the
    three rounds, three calls are made with it, and the record names no
    account. *)
Lemma account_used_counterexample :
  ∃ res w' w1,
    shorten_url env_429 "https://example.com" (world_of [alice]) = (Ok res, w')
    ∧ _get_available_account env_429 (world_of [alice]) = (Ok (Some 0), w1)
    ∧ map call_account (upstream_log w') = [0; 0; 0]
    ∧ account_used res = "".
Proof.
  do 3 eexists. split; [vm_compute; reflexivity |].
  split; [vm_compute; reflexivity |]. split; reflexivity.
Qed.

(** C3, amended. The record of [shorten_url] names no account in two
    outcomes: "No available accounts", when the selection of the round that
    returns answers nothing (fewer than three calls were made, some perhaps
    with accounts selected in earlier rounds), and "Max retries exceeded",
    when the third call was answered 429.  In every other outcome it carries
    the [username] of the account the last call was made with. *)
Theorem account_used_cases env url w :
  cursor_ok w →
  ∃ res w' calls,
    shorten_url env url w = (Ok res, w')
    ∧ upstream_log w' = (upstream_log w ++ calls)%list
    ∧ ((account_used res = ""
        ∧ error_message res = "No available accounts"
        ∧ length calls < max_retries)
       ∨ (account_used res = ""
          ∧ error_message res = "Max retries exceeded"
          ∧ length calls = max_retries
          ∧ ∃ c body, last calls = Some c ∧ call_response c = Http 429 body)
       ∨ (∃ c a,
            last calls = Some c
            ∧ pool w' !! call_account c = Some a
            ∧ account_used res = username a
            ∧ (success res = true ∨ length calls = max_retries))).
Proof.
  intros Hc.
  destruct (shorten_url_outcome env url w Hc)
    as (res & w' & calls & Hrun & Hlog & _ & _ & _ & Hout).
  exists res, w', calls. split; [exact Hrun |]. split; [exact Hlog |].
  destruct Hout as [Hl Hu He Hs Hk | Hl Hlast Hu He Hs Hk
                    | c link a Hl Hlast Hlink Ha Hu Hk Hs He
                    | c msg a Hl Hlast Hlink Hmsg Ha Hu He Hs Hk].
  - left. auto.
  - right; left. repeat split; auto.
    destruct (last calls) as [c |] eqn:Hc'.
    + destruct (Hlast c eq_refl) as [body Hb]. eauto.
    + apply last_None in Hc'. subst calls. discriminate.
  - right; right. exists c, a. auto.
  - right; right. exists c, a. auto.
Qed.

Lemma account_used_cases_witness :
  ∃ res w' calls,
    shorten_url env_500 "https://example.com" (world_of [bob; alice])
    = (Ok res, w')
    ∧ upstream_log w' = (upstream_log (world_of [bob; alice]) ++ calls)%list
    ∧ ((account_used res = ""
        ∧ error_message res = "No available accounts"
        ∧ length calls < max_retries)
       ∨ (account_used res = ""
          ∧ error_message res = "Max retries exceeded"
          ∧ length calls = max_retries
          ∧ ∃ c body, last calls = Some c ∧ call_response c = Http 429 body)
       ∨ (∃ c a,
            last calls = Some c
            ∧ pool w' !! call_account c = Some a
            ∧ account_used res = username a
            ∧ (success res = true ∨ length calls = max_retries))).
Proof.
  apply (account_used_cases env_500 "https://example.com"
           (world_of [bob; alice])).
  cursor_in_pool.
Defined.

Lemma shorten_attempts_500 env url rem :
  (∀ n req, ∃ body, post env n req = Http 500 body) →
  ∀ att w j a0,
    cursor_ok w → pool w !! j = Some a0 → always_eligible env a0 →
    att + S rem = max_retries →
    ∃ res w' calls c a,
      shorten_attempts env url (S rem) att w = (Ok res, w')
      ∧ upstream_log w' = (upstream_log w ++ calls)%list
      ∧ length calls = S rem
      ∧ last calls = Some c
      ∧ pool w' !! call_account c = Some a
      ∧ account_used res = username a
      ∧ success res = false
      ∧ error_message res = "API Error: 500"
      ∧ short_url res = "".
Proof.
  intros H500. induction rem as [| rem IH]; intros att w j a0 Hc Ha0 He Hatt;
    rewrite shorten_attempts_S;
    destruct (select_of_eligible env w j a0 Hc Ha0 He)
      as (k & i & w1 & Hrun & Hk & Hsw & Hi & Hv & _);
    rewrite Hrun;
    destruct (select_Some_lookup env w k i w1 Hsw (proj1 Hk) Hi Hv)
      as (a1 & Ha1 & _);
    rewrite Ha1; cbv zeta;
    set (req := request_for w1 (api_token a1) url);
    destruct (H500 (length (upstream_log w1)) req) as [body Hresp];
    rewrite Hresp;
    destruct (response_500 body) as (Hlink & Hmsg & Hcnt);
    rewrite Hlink, Hmsg; unfold after_response; rewrite Hcnt;
    set (c0 := mkCall i req (Http 500 body));
    pose proof (swept_log _ _ _ _ Hsw) as Hg1.
  - assert (att = 2) as -> by (unfold max_retries in Hatt; lia).
    change (Nat.ltb 2 (max_retries - 1)) with false. cbv iota. rewrite failure_run.
    eexists _, _, [c0], c0, a1. split; [reflexivity |].
    simpl. rewrite Hg1. repeat split; auto.
  - assert (Hlt : (att <? max_retries - 1) = true).
    { apply Nat.ltb_lt. unfold max_retries in *. lia. }
    rewrite Hlt.
    destruct (swept_always_eligible env w k w1 j a0 Hc (proj2 Hk) Hsw Ha0 He)
      as (a0' & Ha0' & He').
    assert (Hc2 : cursor_ok (log_call c0 w1)).
    { apply (swept_cursor_ok _ _ _ _ Hc Hsw). }
    destruct (IH (S att) (log_call c0 w1) j a0' Hc2 Ha0' He' ltac:(lia))
      as (res & w' & calls & c & a & Hr & Hg & Hlen & Hlast & Ha & Hrest).
    exists res, w', (c0 :: calls), c, a. split; [exact Hr |].
    split; [rewrite Hg; simpl; rewrite Hg1, <- app_assoc; reflexivity |].
    split; [simpl; lia |].
    split; [rewrite last_cons, Hlast; reflexivity |].
    split; [exact Ha | exact Hrest].
Qed.

(** C5. With an account in the pool that is eligible whenever the cursor
    comes to it and an upstream that answers 500 to every call,
    [shorten_url] makes exactly three upstream calls and returns a failure
    whose message is "API Error: 500" and whose account is the one the last
    call was made with. *)
Theorem attempt_budget_500 env url w j a0 :
  cursor_ok w →
  pool w !! j = Some a0 → always_eligible env a0 →
  (∀ n req, ∃ body, post env n req = Http 500 body) →
  ∃ res w' c1 c2 c3 a,
    shorten_url env url w = (Ok res, w')
    ∧ upstream_log w' = (upstream_log w ++ [c1; c2; c3])%list
    ∧ pool w' !! call_account c3 = Some a
    ∧ account_used res = username a
    ∧ success res = false
    ∧ error_message res = "API Error: 500"
    ∧ short_url res = "".
Proof.
  intros Hc Ha0 He H500.
  destruct (shorten_attempts_500 env url 2 H500 0 w j a0 Hc Ha0 He eq_refl)
    as (res & w' & calls & c & a & Hr & Hg & Hlen & Hlast & Ha & Hrest).
  destruct calls as [| c1 [| c2 [| c3 [| c4 calls]]]]; try discriminate.
  simpl in Hlast. injection Hlast as <-.
  exists res, w', c1, c2, c3, a. auto.
Qed.

Lemma attempt_budget_500_witness :
  ∃ res w' c1 c2 c3 a,
    shorten_url (mkEnv (steady_clock day2)
                       (upstream_always (Http 500 (NotJson ""))))
                "https://example.com" (world_of [bob; alice; dave])
    = (Ok res, w')
    ∧ upstream_log w' = [c1; c2; c3]
    ∧ pool w' !! call_account c3 = Some a
    ∧ account_used res = username a
    ∧ success res = false
    ∧ error_message res = "API Error: 500"
    ∧ short_url res = "".
Proof.
  apply (attempt_budget_500
           (mkEnv (steady_clock day2) (upstream_always (Http 500 (NotJson ""))))
           "https://example.com" (world_of [bob; alice; dave]) 1 alice).
  - cursor_in_pool.
  - reflexivity.
  - intros t. reflexivity.
  - intros n req. exists (NotJson ""). reflexivity.
Defined.

(** C6. In any round of the retry loop, whatever the number of rounds left,
    a selection that answers nothing ends the call at once: the record is a
    failure with the message "No available accounts" and no account, only
    the clock is read for its stamp, and no upstream call is made. *)
Theorem no_accounts_returns_at_once env url rem att w w1 :
  _get_available_account env w = (Ok None, w1) →
  shorten_attempts env url (S rem) att w =
    (Ok (mkURLResult url "" "" (isoformat (now env (clock_reads w1))) false
                     "No available accounts"),
     tick w1)
  ∧ manager (tick w1) = manager w1
  ∧ upstream_log (tick w1) = upstream_log w.
Proof.
  intros Hrun. rewrite shorten_attempts_S, Hrun, failure_run.
  split; [reflexivity |]. split; [reflexivity |].
  simpl. now apply (select_keeps_log env w None w1).
Qed.

Lemma no_accounts_returns_at_once_witness :
  shorten_attempts (mkEnv (steady_clock day2) (upstream_always (Failed "")))
                   "https://example.com" 3 0 (world_of [bob; carol]) =
    (Ok (mkURLResult "https://example.com" "" "" "2024-05-02T12:00:00" false
                     "No available accounts"),
     tick (mkWorld (mkManager [bob; lazy_reset day2 carol] 0
                              "https://api-ssl.bitly.com/v4") 2 []))
  ∧ manager (tick (mkWorld (mkManager [bob; lazy_reset day2 carol] 0
                                      "https://api-ssl.bitly.com/v4") 2 []))
    = mkManager [bob; lazy_reset day2 carol] 0 "https://api-ssl.bitly.com/v4"
  ∧ upstream_log (tick (mkWorld (mkManager [bob; lazy_reset day2 carol] 0
                                           "https://api-ssl.bitly.com/v4") 2 []))
    = [].
Proof.
  apply (no_accounts_returns_at_once
           (mkEnv (steady_clock day2) (upstream_always (Failed "")))
           "https://example.com" 2 0 (world_of [bob; carol])
           (mkWorld (mkManager [bob; lazy_reset day2 carol] 0
                               "https://api-ssl.bitly.com/v4") 2 [])).
  reflexivity.
Defined.

(** ** The claim on the bulk route *)

Lemma bulk_loop_spec env urls :
  ∀ acc w, cursor_ok w →
  ∃ outcomes w',
    shorten_each env urls w = (Ok outcomes, w')
    ∧ bulk_loop env urls acc w = (Ok (acc ++ map entry_of outcomes)%list, w')
    ∧ map original_url outcomes = map normalize urls.
Proof.
  induction urls as [| url urls IH]; intros acc w Hc.
  - exists [], w. simpl. rewrite app_nil_r. auto.
  - destruct (shorten_url_outcome env (normalize url) w Hc)
      as (res & w1 & calls & Hrun & _ & Hc1 & _ & Hurl & _).
    destruct (IH (acc ++ [entry_of res])%list w1 Hc1)
      as (outcomes & w' & Heach & Hloop & Hurls).
    exists (res :: outcomes), w'. cbn [shorten_each bulk_loop].
    unfold bind at 1. rewrite Hrun. unfold bind at 1. rewrite Heach.
    unfold bind at 1. rewrite Hrun, Hloop. rewrite <- app_assoc.
    simpl. rewrite Hurl, Hurls. auto.
Qed.

Lemma successes_of_entries outcomes :
  List.filter entry_success (map entry_of outcomes)
  = map entry_of (List.filter success outcomes).
Proof.
  induction outcomes as [| o outcomes IH]; [reflexivity |].
  simpl. destruct (success o); simpl; now rewrite IH.
Qed.

(** C9, as stated, fails on the empty list: the route answers an error and
    no counts. *)
Lemma bulk_empty_list_counterexample :
  shorten_bulk env_500 [] (world_of [alice])
  = (ErrorReply "URLs required" 400, world_of [alice])
  ∧ ∀ total successful failed results w',
      shorten_bulk env_500 [] (world_of [alice])
      ≠ (BulkReply total successful failed results, w').
Proof. split; [reflexivity |]. intros total s f results w'. discriminate. Qed.

(** C9, amended. On a manager with accounts and for every list of URLs that
    is not empty, [shorten_bulk] dispatches the URLs one by one in the order
    of the list, each normalized, whatever the earlier outcomes were; its
    results are the records of these calls in the same order, [total] is the
    length of the list, [successful] the number of records with [success],
    and [failed] their difference. *)
Theorem bulk_aggregation env urls w :
  cursor_ok w →
  urls ≠ [] →
  ∃ outcomes w',
    shorten_each env urls w = (Ok outcomes, w')
    ∧ length outcomes = length urls
    ∧ map original_url outcomes = map normalize urls
    ∧ shorten_bulk env urls w =
        (BulkReply (Z.of_nat (length urls))
                   (Z.of_nat (length (List.filter success outcomes)))
                   (Z.of_nat (length urls)
                    - Z.of_nat (length (List.filter success outcomes)))
                   (map entry_of outcomes),
         w').
Proof.
  intros Hc Hne.
  destruct (bulk_loop_spec env urls [] w Hc)
    as (outcomes & w' & Heach & Hloop & Hurls).
  assert (Hlen : length outcomes = length urls).
  { rewrite <- (length_map original_url outcomes), Hurls. apply length_map. }
  exists outcomes, w'. split; [exact Heach |]. split; [exact Hlen |].
  split; [exact Hurls |].
  unfold shorten_bulk. fold (pool w).
  pose proof (cursor_ok_nonempty w Hc) as Hp.
  destruct (pool w) as [| a0 l]; [contradiction |].
  destruct urls as [| url urls']; [contradiction |].
  rewrite Hloop. simpl app.
  rewrite successes_of_entries, !length_map, Hlen. reflexivity.
Qed.

Lemma bulk_aggregation_witness :
  ∃ outcomes w',
    shorten_each env_500 ["example.com"; " http://a.example/x "]
                 (world_of [alice]) = (Ok outcomes, w')
    ∧ length outcomes = 2
    ∧ map original_url outcomes
      = ["https://example.com"; "http://a.example/x"]
    ∧ shorten_bulk env_500 ["example.com"; " http://a.example/x "]
                   (world_of [alice]) =
        (BulkReply 2 (Z.of_nat (length (List.filter success outcomes)))
                   (2 - Z.of_nat (length (List.filter success outcomes)))
                   (map entry_of outcomes),
         w').
Proof.
  apply (bulk_aggregation env_500 ["example.com"; " http://a.example/x "]
           (world_of [alice])).
  - cursor_in_pool.
  - discriminate.
Defined.

(** * Further properties *)

(** ** What every step of [shorten_url] keeps *)

Section Steps.

Variables (env : Env) (url : string).

(** A relation between the state before and the state after. *)
Variable R : World → World → Prop.

Hypothesis R_refl : ∀ w, R w w.
Hypothesis R_trans : ∀ w1 w2 w3, R w1 w2 → R w2 w3 → R w1 w3.

(** It holds across a sweep of the pool, *)
Hypothesis R_swept : ∀ w k w',
  cursor_ok w → k ≤ length (pool w) → swept env w k w' → R w w'.

(** across an upstream call made with a usable account, and what line 69
    may do after it, *)
Hypothesis R_call : ∀ w i a,
  pool w !! i = Some a → usable a = true →
  R w (after_response i
         (post env (length (upstream_log w))
               (request_for w (api_token a) url))
         (log_call (mkCall i (request_for w (api_token a) url)
                           (post env (length (upstream_log w))
                                 (request_for w (api_token a) url)))
                   w)).

(** and across a reading of the clock. *)
Hypothesis R_tick : ∀ w, R w (tick w).

Lemma select_related w :
  cursor_ok w →
  ∃ r w', _get_available_account env w = (Ok r, w') ∧ R w w' ∧ cursor_ok w'
          ∧ ∀ i, r = Some i → ∃ a, pool w' !! i = Some a ∧ usable a = true.
Proof.
  intros Hc.
  destruct (select_spec env w Hc) as (k & r & w' & Hrun & Hk & Hsw & Hr).
  exists r, w'. split; [exact Hrun |]. split; [eauto |].
  split; [eapply swept_cursor_ok; eauto |].
  intros i ->. destruct Hr as (Hk1 & Hi & Hv & _).
  eapply select_Some_lookup; eauto.
Qed.

Lemma shorten_attempts_related rem :
  ∀ att w, cursor_ok w →
  ∃ res w', shorten_attempts env url rem att w = (Ok res, w') ∧ R w w'.
Proof.
  induction rem as [| rem IH]; intros att w Hc.
  - rewrite shorten_attempts_0, failure_run. eauto.
  - rewrite shorten_attempts_S.
    destruct (select_related w Hc) as (r & w1 & Hrun & HR1 & Hc1 & Hsel).
    rewrite Hrun. destruct r as [i |].
    2: { rewrite failure_run. eauto. }
    destruct (Hsel i eq_refl) as (a1 & Ha1 & Hu1). rewrite Ha1. cbv zeta.
    pose proof (R_call w1 i a1 Ha1 Hu1) as HR2.
    set (req := request_for w1 (api_token a1) url) in *.
    set (resp := post env (length (upstream_log w1)) req) in *.
    set (w2 := after_response i resp (log_call (mkCall i req resp) w1)) in *.
    assert (Hc2 : cursor_ok w2).
    { destruct (after_response_frame i resp (log_call (mkCall i req resp) w1))
        as (Hl & Hcur & _).
      unfold cursor_ok, w2. rewrite Hl, Hcur. exact Hc1. }
    assert (HR : R w w2) by eauto.
    assert (Hcont : ∀ att',
      ∃ res w', shorten_attempts env url rem att' w2 = (Ok res, w') ∧ R w w').
    { intros att'. destruct (IH att' w2 Hc2) as (res & w' & Hr' & HR').
      eauto. }
    destruct (link_of resp) as [link |]; [eauto |].
    destruct (terminal_message resp) as [msg |]; [| apply Hcont].
    destruct (att <? max_retries - 1); [apply Hcont |].
    rewrite failure_run. eauto.
Qed.

End Steps.

(** ** What the manager never assigns *)

Lemma identity_lazy_reset d a : identity (lazy_reset d a) = identity a.
Proof.
  unfold lazy_reset. destruct (last_reset a =? d)%string; reflexivity.
Qed.

Lemma identity_at (l l' : list Account) i a :
  map identity l' = map identity l → l !! i = Some a →
  ∃ a', l' !! i = Some a' ∧ identity a' = identity a.
Proof.
  intros Hm Ha.
  assert (H : map identity l' !! i = Some (identity a)).
  { rewrite Hm, list_lookup_fmap, Ha. reflexivity. }
  rewrite list_lookup_fmap in H.
  destruct (l' !! i) as [a' |]; [| discriminate].
  exists a'. split; [reflexivity |].
  change (Some (identity a') = Some (identity a)) in H. congruence.
Qed.

Lemma swept_identity env w k w' :
  cursor_ok w → k ≤ length (pool w) → swept env w k w' →
  map identity (pool w') = map identity (pool w).
Proof.
  intros Hc Hk Hsw. apply list_eq. intros j.
  rewrite !list_lookup_fmap.
  destruct (pool w !! j) as [a |] eqn:Ha.
  - destruct (swept_at env w k w' j a Hc Hk Hsw Ha) as [H | [t H]];
      rewrite H; simpl; [reflexivity |]. now rewrite identity_lazy_reset.
  - apply lookup_ge_None in Ha.
    rewrite (proj2 (lookup_ge_None (pool w') j)); [reflexivity |].
    rewrite (swept_length _ _ _ _ Hsw). exact Ha.
Qed.

Lemma after_response_identity i resp w :
  map identity (pool (after_response i resp w)) = map identity (pool w).
Proof.
  unfold after_response. destruct (counts_use resp); [| reflexivity].
  unfold use_account, pool. simpl.
  generalize (accounts (manager w)) as l. intros l. revert i.
  induction l as [| a l IH]; intros [| i]; simpl; f_equal; auto.
  apply IH.
Qed.

Lemma call_for_identity (l l' : list Account) base url c :
  map identity l' = map identity l →
  call_for l base url c → call_for l' base url c.
Proof.
  intros Hm (a & Ha & Ht & Hreq).
  destruct (identity_at l l' _ a Hm Ha) as (a' & Ha' & Hid).
  assert (Htok : api_token a' = api_token a).
  { unfold identity in Hid. now injection Hid. }
  exists a'. rewrite Htok. auto.
Qed.

(** With the cursor outside a pool that is not empty, line 124 raises before
    anything is assigned. *)
Lemma select_raises env w :
  pool w ≠ [] → ¬ cursor_ok w →
  _get_available_account env w = (Raise IndexError, w).
Proof.
  intros Hne Hc. rewrite select_unfold by exact Hne.
  destruct (pool w) as [| a0 l] eqn:Hp; [contradiction |].
  cbn [length select_loop]. unfold bind. rewrite examine_spec.
  assert (Hn : pool w !! cursor w = None).
  { apply lookup_ge_None. unfold cursor_ok in Hc. lia. }
  now rewrite Hn.
Qed.

Lemma served_refl url w : served url w w.
Proof.
  repeat split; auto. exists []. split; [now rewrite app_nil_r | constructor].
Qed.

Lemma served_trans url w1 w2 w3 :
  served url w1 w2 → served url w2 w3 → served url w1 w3.
Proof.
  intros (L1 & I1 & B1 & calls1 & G1 & F1) (L2 & I2 & B2 & calls2 & G2 & F2).
  split; [congruence |]. split; [congruence |]. split; [congruence |].
  exists (calls1 ++ calls2)%list. split.
  - rewrite G2, G1, <- app_assoc. reflexivity.
  - apply Forall_app. split; [exact F1 |].
    rewrite B1 in F2. eapply Forall_impl; [exact F2 |].
    intros c Hc. eapply call_for_identity; [| exact Hc]. congruence.
Qed.

Lemma served_swept env url w k w' :
  cursor_ok w → k ≤ length (pool w) → swept env w k w' → served url w w'.
Proof.
  intros Hc Hk Hsw. split; [apply (swept_length _ _ _ _ Hsw) |].
  split; [eapply swept_identity; eauto |].
  split; [apply (swept_base _ _ _ _ Hsw) |].
  exists []. rewrite app_nil_r. split; [apply (swept_log _ _ _ _ Hsw) | constructor].
Qed.

Lemma usable_true a :
  usable a = true →
  (current_count a < daily_limit a)%Z ∧ truthy (api_token a) = true
  ∧ api_token a ≠ "".
Proof.
  unfold usable. intros H. apply andb_true_iff in H as [Hlt Ht].
  split; [now apply Z.ltb_lt |]. split; [exact Ht |].
  intros He. rewrite He in Ht. discriminate.
Qed.

Lemma served_call env url w i a :
  pool w !! i = Some a → usable a = true →
  served url w
    (after_response i
       (post env (length (upstream_log w)) (request_for w (api_token a) url))
       (log_call (mkCall i (request_for w (api_token a) url)
                         (post env (length (upstream_log w))
                               (request_for w (api_token a) url)))
                 w)).
Proof.
  intros Ha Hu.
  set (req := request_for w (api_token a) url).
  set (resp := post env (length (upstream_log w)) req).
  destruct (after_response_frame i resp (log_call (mkCall i req resp) w))
    as (Hl & _ & _ & Hg & Hb & _).
  split; [exact Hl |].
  split; [rewrite after_response_identity; reflexivity |].
  split; [exact Hb |].
  exists [mkCall i req resp]. split; [exact Hg |].
  constructor; [| constructor].
  exists a. split; [exact Ha |]. split; [apply (usable_true a Hu) |].
  reflexivity.
Qed.

Lemma served_tick url w : served url w (tick w).
Proof. exact (served_refl url w). Qed.

Lemma within_quota_lazy_reset d a :
  within_quota a → within_quota (lazy_reset d a).
Proof.
  unfold within_quota, lazy_reset.
  destruct (last_reset a =? d)%string; simpl; lia.
Qed.

Lemma swept_within_quota env w k w' :
  cursor_ok w → k ≤ length (pool w) → swept env w k w' →
  (∀ a, a ∈ pool w → within_quota a) → ∀ a, a ∈ pool w' → within_quota a.
Proof.
  intros Hc Hk Hsw Hall a' Hin.
  apply list_elem_of_lookup in Hin as [j Hj].
  assert (Hlt : j < length (pool w)).
  { rewrite <- (swept_length _ _ _ _ Hsw). apply lookup_lt_is_Some. eauto. }
  apply lookup_lt_is_Some in Hlt as [a Ha].
  assert (Hq : within_quota a).
  { apply Hall. apply list_elem_of_lookup. eauto. }
  destruct (swept_at env w k w' j a Hc Hk Hsw Ha) as [H | [t H]];
    rewrite H in Hj; injection Hj as <-;
    [exact Hq | now apply within_quota_lazy_reset].
Qed.

Lemma after_response_within_quota i resp w c a :
  pool w !! i = Some a → usable a = true →
  (∀ x, x ∈ pool w → within_quota x) →
  ∀ x, x ∈ pool (after_response i resp (log_call c w)) → within_quota x.
Proof.
  intros Ha Hu Hall x Hin. unfold after_response in Hin.
  destruct (counts_use resp); [| now apply Hall].
  unfold use_account, pool in Hin. simpl in Hin. fold (pool w) in Hin.
  apply list_elem_of_lookup in Hin as [j Hj].
  destruct (decide (i = j)) as [<- | Hne].
  - rewrite list_lookup_alter_eq, Ha in Hj. simpl in Hj. injection Hj as <-.
    assert (Hq : within_quota a).
    { apply Hall. apply list_elem_of_lookup. eauto. }
    destruct (usable_true a Hu) as (Hlt & _).
    unfold within_quota, count_use in *. simpl. lia.
  - rewrite list_lookup_alter_ne in Hj by exact Hne.
    apply Hall. apply list_elem_of_lookup. eauto.
Qed.

(** ** Further properties of the account pool *)

(** X1. A selection answers the first account, in cyclic order from the
    cursor, that passes line 132 once reset for the day, and leaves the
    cursor on the slot after it; it answers nothing exactly when every
    account of the pool is turned down, and then the cursor is back where it
    started. *)
Theorem first_eligible_is_selected env w :
  cursor_ok w →
  ∃ r w',
    _get_available_account env w = (Ok r, w')
    ∧ match r with
      | Some i =>
          ∃ k, k < length (pool w)
               ∧ i = slot (length (pool w)) (cursor w) k
               ∧ verdict env w k = Some true
               ∧ (∀ m, m < k → verdict env w m = Some false)
               ∧ cursor w' = slot (length (pool w)) (cursor w) (S k)
      | None =>
          (∀ m, m < length (pool w) → verdict env w m = Some false)
          ∧ cursor w' = cursor w
      end.
Proof.
  intros Hc.
  destruct (select_spec env w Hc) as (k & r & w' & Hrun & Hk & Hsw & Hr).
  exists r, w'. split; [exact Hrun |]. destruct r as [i |].
  - destruct Hr as (Hk1 & Hi & Hv & Hrej). exists (k - 1).
    split; [lia |]. split; [exact Hi |]. split; [exact Hv |].
    split; [exact Hrej |].
    rewrite (swept_cursor _ _ _ _ Hsw). f_equal. lia.
  - destruct Hr as (-> & Hrej). split; [exact Hrej |].
    rewrite (swept_cursor _ _ _ _ Hsw). now apply slot_full.
Qed.

Lemma first_eligible_is_selected_witness :
  ∃ r w',
    _get_available_account
      (mkEnv (steady_clock day2) (upstream_always (Failed "")))
      (world_of [bob; carol; dave]) = (Ok r, w')
    ∧ match r with
      | Some i =>
          ∃ k, k < 3
               ∧ i = slot 3 0 k
               ∧ verdict (mkEnv (steady_clock day2) (upstream_always (Failed "")))
                         (world_of [bob; carol; dave]) k = Some true
               ∧ (∀ m, m < k →
                    verdict (mkEnv (steady_clock day2)
                                   (upstream_always (Failed "")))
                            (world_of [bob; carol; dave]) m = Some false)
               ∧ cursor w' = slot 3 0 (S k)
      | None =>
          (∀ m, m < 3 →
             verdict (mkEnv (steady_clock day2) (upstream_always (Failed "")))
                     (world_of [bob; carol; dave]) m = Some false)
          ∧ cursor w' = 0
      end.
Proof.
  apply (first_eligible_is_selected
           (mkEnv (steady_clock day2) (upstream_always (Failed "")))
           (world_of [bob; carol; dave])).
  cursor_in_pool.
Defined.

(** X2. Whatever its answer, and also when it raises, a selection leaves
    the size of the pool, the username, password, token and daily limit of
    every account, the base URL and the log of upstream calls as they
    were. *)
Theorem selection_frame env w r w' :
  _get_available_account env w = (r, w') →
  length (pool w') = length (pool w)
  ∧ map identity (pool w') = map identity (pool w)
  ∧ base_url (manager w') = base_url (manager w)
  ∧ upstream_log w' = upstream_log w.
Proof.
  intros Hrun. destruct (pool w) as [| a0 l] eqn:Hp.
  - rewrite select_empty in Hrun by exact Hp. injection Hrun as <- <-.
    rewrite Hp. now repeat split.
  - assert (Hne : pool w ≠ []) by (rewrite Hp; discriminate).
    rewrite <- Hp. clear Hp.
    destruct (decide (cursor w < length (pool w))) as [Hc | Hc].
    + destruct (select_spec env w Hc) as (k & r0 & w0 & Hrun0 & Hk & Hsw & _).
      rewrite Hrun in Hrun0. injection Hrun0 as -> ->.
      split; [apply (swept_length _ _ _ _ Hsw) |].
      split; [eapply swept_identity; eauto |].
      split; [apply (swept_base _ _ _ _ Hsw) | apply (swept_log _ _ _ _ Hsw)].
    + rewrite (select_raises env w Hne Hc) in Hrun.
      injection Hrun as <- <-. now repeat split.
Qed.

Lemma selection_frame_witness :
  length (pool (snd (_get_available_account env_500 (world_of [carol; dave]))))
  = length (pool (world_of [carol; dave]))
  ∧ map identity
        (pool (snd (_get_available_account env_500 (world_of [carol; dave]))))
    = map identity (pool (world_of [carol; dave]))
  ∧ base_url (manager (snd (_get_available_account env_500
                              (world_of [carol; dave]))))
    = base_url (manager (world_of [carol; dave]))
  ∧ upstream_log (snd (_get_available_account env_500 (world_of [carol; dave])))
    = upstream_log (world_of [carol; dave]).
Proof.
  apply (selection_frame env_500 (world_of [carol; dave])
           (fst (_get_available_account env_500 (world_of [carol; dave])))).
  reflexivity.
Defined.

(** X3. The account a selection answers has, in the state the selection
    leaves, a token that is not empty and a counter below its daily limit;
    an account without a token is never answered. *)
Theorem selected_has_token_and_quota env w i w' :
  _get_available_account env w = (Ok (Some i), w') →
  ∃ a0 a,
    pool w !! i = Some a0
    ∧ pool w' !! i = Some a
    ∧ identity a = identity a0
    ∧ api_token a0 ≠ ""
    ∧ (current_count a < daily_limit a)%Z.
Proof.
  intros Hrun.
  pose proof (select_Some_cursor_ok env w i w' Hrun) as Hc.
  destruct (select_spec env w Hc) as (k & r0 & w0 & Hrun0 & Hk & Hsw & Hr).
  rewrite Hrun in Hrun0. injection Hrun0 as <- <-.
  destruct Hr as (Hk1 & Hi & Hv & _).
  destruct (select_Some_lookup env w k i w' Hsw Hk1 Hi Hv) as (a & Ha & Hu).
  pose proof (swept_identity env w k w' Hc Hk Hsw) as Hid.
  assert (Hi' : i < length (pool w)).
  { rewrite <- (swept_length _ _ _ _ Hsw). apply lookup_lt_is_Some. eauto. }
  apply lookup_lt_is_Some in Hi' as [a0 Ha0].
  destruct (identity_at _ _ i a0 Hid Ha0) as (a' & Ha' & Hida).
  rewrite Ha in Ha'. injection Ha' as <-.
  exists a0, a. split; [exact Ha0 |]. split; [exact Ha |].
  split; [exact Hida |].
  destruct (usable_true a Hu) as (Hlt & _ & Htok).
  split; [| exact Hlt].
  assert (Heq : api_token a = api_token a0).
  { unfold identity in Hida. now injection Hida. }
  congruence.
Qed.

Lemma selected_has_token_and_quota_witness :
  ∃ a0 a,
    pool (world_of [carol; dave]) !! 1 = Some a0
    ∧ pool (snd (_get_available_account env_500 (world_of [carol; dave]))) !! 1
      = Some a
    ∧ identity a = identity a0
    ∧ api_token a0 ≠ ""
    ∧ (current_count a < daily_limit a)%Z.
Proof.
  apply (selected_has_token_and_quota env_500 (world_of [carol; dave])).
  reflexivity.
Defined.

(** X4. On a day that does not change, once a selection has answered
    nothing the next one answers nothing as well, and leaves the pool and
    the cursor as it found them: asking again cannot help before the date
    changes or the state is changed from outside. *)
Theorem none_is_stable env today w w1 :
  (∀ t, today_at env t = today) →
  _get_available_account env w = (Ok None, w1) →
  ∃ w2,
    _get_available_account env w1 = (Ok None, w2)
    ∧ pool w2 = pool w1
    ∧ cursor w2 = cursor w1.
Proof.
  intros Hday Hrun. destruct (pool w) as [| a0 l] eqn:Hp.
  - rewrite select_empty in Hrun by exact Hp. injection Hrun as <-.
    exists w. rewrite select_empty by exact Hp. auto.
  - assert (Hne : pool w ≠ []) by (rewrite Hp; discriminate).
    clear Hp.
    pose proof (select_Ok_cursor_ok env w None w1 Hne Hrun) as Hc.
    destruct (select_spec env w Hc) as (k & r0 & w0 & Hrun0 & Hk & Hsw & Hr).
    rewrite Hrun in Hrun0. injection Hrun0 as <- <-.
    destruct Hr as (-> & Hrej).
    pose proof (swept_cursor_ok _ _ _ _ Hc Hsw) as Hc1.
    pose proof (swept_length _ _ _ _ Hsw) as Hlen.
    assert (HA : ∀ j a1, pool w1 !! j = Some a1 →
                 last_reset a1 = today ∧ usable a1 = false).
    { intros j a1 Hj.
      assert (Hjn : j < length (pool w)).
      { rewrite <- Hlen. apply lookup_lt_is_Some. eauto. }
      destruct (slot_surj _ _ j Hc Hjn) as (m0 & Hm0 & Hs).
      pose proof (swept_passed _ _ _ _ Hsw m0 Hm0) as Hpass.
      pose proof (Hrej m0 Hm0) as Hv. unfold verdict in Hv.
      rewrite Hs, Hday in *. rewrite Hj in Hpass.
      destruct (pool w !! j) as [a |]; [| discriminate].
      simpl in *. injection Hpass as ->. split; [| congruence].
      apply lazy_reset_fixed. }
    assert (HB : ∀ m, m < length (pool w1) → verdict env w1 m = Some false).
    { intros m Hm. unfold verdict.
      assert (Hs : slot (length (pool w1)) (cursor w1) m < length (pool w1)).
      { apply slot_lt. lia. }
      apply lookup_lt_is_Some in Hs as [a1 Ha1]. rewrite Ha1, Hday. simpl.
      destruct (HA _ _ Ha1) as (Hfresh & Hu).
      now rewrite (lazy_reset_fresh _ _ Hfresh), Hu. }
    destruct (select_spec env w1 Hc1) as (k2 & r2 & w2 & Hrun2 & Hk2 & Hsw2 & Hr2).
    destruct r2 as [i |].
    { destruct Hr2 as (Hk1 & _ & Hv & _). rewrite HB in Hv by lia.
      discriminate. }
    destruct Hr2 as (-> & _). exists w2. split; [exact Hrun2 |]. split.
    + apply list_eq. intros j.
      destruct (pool w1 !! j) as [a1 |] eqn:Ha1.
      * assert (Hjn : j < length (pool w1)) by (apply lookup_lt_is_Some; eauto).
        destruct (slot_surj _ _ j Hc1 Hjn) as (m0 & Hm0 & Hs).
        pose proof (swept_passed _ _ _ _ Hsw2 m0 Hm0) as Hpass.
        rewrite Hs, Hday, Ha1 in Hpass. rewrite Hpass. simpl.
        destruct (HA _ _ Ha1) as (Hfresh & _).
        now rewrite (lazy_reset_fresh _ _ Hfresh).
      * apply lookup_ge_None. rewrite (swept_length _ _ _ _ Hsw2).
        now apply lookup_ge_None.
    + rewrite (swept_cursor _ _ _ _ Hsw2). now apply slot_full.
Qed.

Lemma none_is_stable_witness :
  ∃ w2,
    _get_available_account
      env_500 (snd (_get_available_account env_500 (world_of [bob; carol])))
    = (Ok None, w2)
    ∧ pool w2
      = pool (snd (_get_available_account env_500 (world_of [bob; carol])))
    ∧ cursor w2
      = cursor (snd (_get_available_account env_500 (world_of [bob; carol]))).
Proof.
  apply (none_is_stable env_500 day2 (world_of [bob; carol])).
  - intros t. reflexivity.
  - reflexivity.
Defined.

(** ** Further properties of the dispatcher *)

(** X5. In a pool where every daily limit is at least 0 and every counter
    at most its limit, this is still so after a selection and after
    [shorten_url], whatever the clock and the upstream do: no account is
    ever counted above its daily limit. *)
Theorem never_over_quota env url w :
  cursor_ok w →
  (∀ a, a ∈ pool w → within_quota a) →
  (∃ r w', _get_available_account env w = (Ok r, w')
           ∧ ∀ a, a ∈ pool w' → within_quota a)
  ∧ (∃ res w', shorten_url env url w = (Ok res, w')
               ∧ ∀ a, a ∈ pool w' → within_quota a).
Proof.
  intros Hc Hq. split.
  - destruct (select_spec env w Hc) as (k & r & w' & Hrun & Hk & Hsw & _).
    exists r, w'. split; [exact Hrun |].
    eapply swept_within_quota; eauto.
  - destruct (shorten_attempts_related env url
                (λ w w', (∀ a, a ∈ pool w → within_quota a) →
                         ∀ a, a ∈ pool w' → within_quota a))
      with (rem := max_retries) (att := 0) (w := w)
      as (res & w' & Hrun & HR); auto.
    + intros w0 k w0' Hc0 Hk Hsw Hq0. eapply swept_within_quota; eauto.
    + intros w0 i a Ha Hu Hq0. eapply after_response_within_quota; eauto.
    + exists res, w'. split; [exact Hrun | now apply HR].
Qed.

Lemma never_over_quota_witness :
  (∃ r w', _get_available_account env_no_link (world_of [alice; bob]) = (Ok r, w')
           ∧ ∀ a, a ∈ pool w' → within_quota a)
  ∧ (∃ res w', shorten_url env_no_link "https://example.com"
                           (world_of [alice; bob]) = (Ok res, w')
               ∧ ∀ a, a ∈ pool w' → within_quota a).
Proof.
  apply (never_over_quota env_no_link "https://example.com"
           (world_of [alice; bob])).
  - cursor_in_pool.
  - intros a Ha. apply list_elem_of_In in Ha. simpl in Ha.
    destruct Ha as [<- | [<- | []]]; unfold within_quota; simpl; lia.
Defined.

(** X6. [shorten_url] makes at most three upstream calls.  Each of them goes
    to the endpoint [base_url/shorten] with the domain "bit.ly" and the URL
    it was given, and carries as bearer the token, never empty, of the
    account in the slot the call is made for.  The call leaves the size of
    the pool, the base URL and the username, password, token and daily limit
    of every account as they were. *)
Theorem upstream_calls_well_formed env url w :
  cursor_ok w →
  ∃ res w' calls,
    shorten_url env url w = (Ok res, w')
    ∧ upstream_log w' = (upstream_log w ++ calls)%list
    ∧ length calls ≤ max_retries
    ∧ Forall (call_for (pool w) (base_url (manager w)) url) calls
    ∧ length (pool w') = length (pool w)
    ∧ map identity (pool w') = map identity (pool w)
    ∧ base_url (manager w') = base_url (manager w).
Proof.
  intros Hc.
  destruct (shorten_url_outcome env url w Hc)
    as (res & w' & calls & Hrun & Hlog & _ & _ & _ & Hout).
  destruct (shorten_attempts_related env url (served url))
    with (rem := max_retries) (att := 0) (w := w)
    as (res0 & w0 & Hrun0 & HL & HI & HB & calls0 & Hlog0 & Hcalls);
    eauto using served_refl, served_trans, served_swept, served_call,
                served_tick.
  unfold shorten_url in Hrun. rewrite Hrun in Hrun0. injection Hrun0 as <- <-.
  assert (calls0 = calls) as ->.
  { rewrite Hlog in Hlog0. now apply app_inv_head in Hlog0. }
  exists res, w', calls. split; [exact Hrun |]. split; [exact Hlog |].
  split; [| auto].
  destruct Hout as [Hl | Hl | c link a Hl | c msg a Hl]; lia.
Qed.

Lemma upstream_calls_well_formed_witness :
  ∃ res w' calls,
    shorten_url env_429 "https://example.com" (world_of [bob; alice])
    = (Ok res, w')
    ∧ upstream_log w' = (upstream_log (world_of [bob; alice]) ++ calls)%list
    ∧ length calls ≤ max_retries
    ∧ Forall (call_for (pool (world_of [bob; alice]))
                       (base_url (manager (world_of [bob; alice])))
                       "https://example.com") calls
    ∧ length (pool w') = length (pool (world_of [bob; alice]))
    ∧ map identity (pool w') = map identity (pool (world_of [bob; alice]))
    ∧ base_url (manager w') = base_url (manager (world_of [bob; alice])).
Proof.
  apply (upstream_calls_well_formed env_429 "https://example.com"
           (world_of [bob; alice])).
  cursor_in_pool.
Defined.

Lemma shorten_attempts_links env url rem :
  ∀ att w, cursor_ok w →
  ∃ res w' calls,
    shorten_attempts env url rem att w = (Ok res, w')
    ∧ upstream_log w' = (upstream_log w ++ calls)%list
    ∧ if success res
      then ∃ earlier c link,
             calls = (earlier ++ [c])%list
             ∧ Forall (λ c, link_of (call_response c) = None) earlier
             ∧ link_of (call_response c) = Some link
             ∧ short_url res = link ∧ error_message res = ""
      else Forall (λ c, link_of (call_response c) = None) calls
           ∧ short_url res = "".
Proof.
  induction rem as [| rem IH]; intros att w Hc.
  - rewrite shorten_attempts_0, failure_run.
    eexists _, _, []. split; [reflexivity |]. simpl.
    rewrite app_nil_r. auto.
  - rewrite shorten_attempts_S.
    destruct (select_spec env w Hc) as (k & r & w1 & Hrun & Hk & Hsw & Hr).
    rewrite Hrun.
    pose proof (swept_cursor_ok _ _ _ _ Hc Hsw) as Hc1.
    pose proof (swept_log _ _ _ _ Hsw) as Hg1.
    destruct r as [i |].
    2: { rewrite failure_run. eexists _, _, []. split; [reflexivity |].
         simpl. rewrite app_nil_r. auto. }
    destruct Hr as (Hk1 & Hi & Hv & _).
    destruct (select_Some_lookup env w k i w1 Hsw Hk1 Hi Hv) as (a1 & Ha1 & _).
    rewrite Ha1. cbv zeta.
    set (req := request_for w1 (api_token a1) url).
    set (resp := post env (length (upstream_log w1)) req).
    set (c0 := mkCall i req resp).
    set (w2 := after_response i resp (log_call c0 w1)).
    destruct (after_response_frame i resp (log_call c0 w1))
      as (Hl2 & Hcur2 & _ & Hg2 & _).
    fold w2 in Hl2, Hcur2, Hg2.
    assert (Hc2 : cursor_ok w2).
    { unfold cursor_ok. rewrite Hl2, Hcur2. exact Hc1. }
    assert (Hlog2 : upstream_log w2 = (upstream_log w ++ [c0])%list).
    { rewrite Hg2. simpl. now rewrite Hg1. }
    destruct (link_of resp) as [link |] eqn:Hlink.
    + eexists _, _, [c0]. split; [reflexivity |]. split; [exact Hlog2 |].
      simpl. exists [], c0, link. auto.
    + assert (Hcont : ∀ att',
        ∃ res w' calls,
          shorten_attempts env url rem att' w2 = (Ok res, w')
          ∧ upstream_log w' = (upstream_log w ++ calls)%list
          ∧ if success res
            then ∃ earlier c link,
                   calls = (earlier ++ [c])%list
                   ∧ Forall (λ c, link_of (call_response c) = None) earlier
                   ∧ link_of (call_response c) = Some link
                   ∧ short_url res = link ∧ error_message res = ""
            else Forall (λ c, link_of (call_response c) = None) calls
                 ∧ short_url res = "").
      { intros att'.
        destruct (IH att' w2 Hc2) as (res & w' & calls & Hr' & Hg' & Hfin).
        exists res, w', (c0 :: calls). split; [exact Hr' |].
        split; [rewrite Hg', Hlog2, <- app_assoc; reflexivity |].
        destruct (success res).
        - destruct Hfin as (earlier & c & l & -> & Hall & Hrest).
          exists (c0 :: earlier), c, l. split; [reflexivity |].
          split; [constructor; assumption | exact Hrest].
        - destruct Hfin as (Hall & Hs). split; [| exact Hs].
          constructor; assumption. }
      destruct (terminal_message resp) as [msg |]; [| apply Hcont].
      destruct (att <? max_retries - 1); [apply Hcont |].
      rewrite failure_run. eexists _, _, [c0]. split; [reflexivity |].
      split; [exact Hlog2 |]. simpl. split; [| reflexivity].
      constructor; [exact Hlink | constructor].
Qed.

(** X7. [shorten_url] reports success exactly when one of its upstream calls
    is answered 200 or 201 with a link; that call is then its last one, all
    earlier calls were answered otherwise, and the record carries this link
    and no error message.  On a failure no call was so answered and the
    short URL is empty. *)
Theorem success_iff_link env url w :
  cursor_ok w →
  ∃ res w' calls,
    shorten_url env url w = (Ok res, w')
    ∧ upstream_log w' = (upstream_log w ++ calls)%list
    ∧ (success res = true
       ↔ ∃ c, c ∈ calls ∧ is_Some (link_of (call_response c)))
    ∧ if success res
      then ∃ earlier c link,
             calls = (earlier ++ [c])%list
             ∧ Forall (λ c, link_of (call_response c) = None) earlier
             ∧ link_of (call_response c) = Some link
             ∧ short_url res = link ∧ error_message res = ""
      else Forall (λ c, link_of (call_response c) = None) calls
           ∧ short_url res = "".
Proof.
  intros Hc.
  destruct (shorten_attempts_links env url max_retries 0 w Hc)
    as (res & w' & calls & Hrun & Hlog & Hfin).
  exists res, w', calls. split; [exact Hrun |]. split; [exact Hlog |].
  split; [| exact Hfin].
  destruct (success res).
  - destruct Hfin as (earlier & c & link & -> & _ & Hlink & _).
    split; [| reflexivity]. intros _. exists c. split.
    + apply elem_of_app. right. apply list_elem_of_singleton. reflexivity.
    + rewrite Hlink. eauto.
  - destruct Hfin as (Hall & _). split; [discriminate |].
    intros (c & Hin & Hsome). rewrite Forall_forall in Hall.
    rewrite (Hall c Hin) in Hsome. destruct Hsome as [x Hx]. discriminate.
Qed.

Lemma success_iff_link_witness :
  ∃ res w' calls,
    shorten_url env_no_link "https://example.com" (world_of [alice; dave])
    = (Ok res, w')
    ∧ upstream_log w' = (upstream_log (world_of [alice; dave]) ++ calls)%list
    ∧ (success res = true
       ↔ ∃ c, c ∈ calls ∧ is_Some (link_of (call_response c)))
    ∧ if success res
      then ∃ earlier c link,
             calls = (earlier ++ [c])%list
             ∧ Forall (λ c, link_of (call_response c) = None) earlier
             ∧ link_of (call_response c) = Some link
             ∧ short_url res = link ∧ error_message res = ""
      else Forall (λ c, link_of (call_response c) = None) calls
           ∧ short_url res = "".
Proof.
  apply (success_iff_link env_no_link "https://example.com"
           (world_of [alice; dave])).
  cursor_in_pool.
Defined.

Lemma select_first_explicit env w a :
  pool w !! cursor w = Some a →
  usable (lazy_reset (today_at env (clock_reads w)) a) = true →
  _get_available_account env w =
  (Ok (Some (cursor w)),
   mkWorld (mkManager
              (<[cursor w := lazy_reset (today_at env (clock_reads w)) a]> (pool w))
              (slot (length (pool w)) (cursor w) 1)
              (base_url (manager w)))
           (S (clock_reads w)) (upstream_log w)).
Proof.
  intros Ha Hu.
  assert (Hc : cursor_ok w) by (apply lookup_lt_is_Some; eauto).
  rewrite select_unfold by now apply cursor_ok_nonempty.
  assert (Hn : ∃ n, length (pool w) = S n).
  { unfold cursor_ok in Hc. exists (length (pool w) - 1). lia. }
  destruct Hn as [n Hn]. rewrite Hn at 1.
  cbn [select_loop]. unfold bind. rewrite examine_spec, Ha. cbv zeta.
  rewrite Hu. reflexivity.
Qed.

(** X8. When the account under the cursor passes line 132 once reset for
    the day and the upstream answers the call made with its token by 200 or
    201 and a link, [shorten_url] returns after this single call: the record
    is a success with the link and the username of that account, whose
    counter is one above what the reset left; the other accounts are
    untouched and the cursor is one slot further. *)
Theorem success_on_first_attempt env url w a code link :
  pool w !! cursor w = Some a →
  usable (lazy_reset (today_at env (clock_reads w)) a) = true →
  post env (length (upstream_log w)) (request_for w (api_token a) url)
  = Http code (Link link) →
  is_2xx code = true →
  ∃ w',
    shorten_url env url w
    = (Ok (mkURLResult url link (username a)
                       (isoformat (now env (S (clock_reads w)))) true ""),
       w')
    ∧ pool w'
      = <[cursor w := count_use (lazy_reset (today_at env (clock_reads w)) a)]>
          (pool w)
    ∧ cursor w' = slot (length (pool w)) (cursor w) 1
    ∧ upstream_log w'
      = (upstream_log w
         ++ [mkCall (cursor w) (request_for w (api_token a) url)
                    (Http code (Link link))])%list.
Proof.
  intros Ha Hu Hresp H2xx.
  assert (Hc : cursor w < length (pool w)) by (apply lookup_lt_is_Some; eauto).
  unfold shorten_url, max_retries. rewrite shorten_attempts_S.
  rewrite (select_first_explicit env w a Ha Hu).
  set (a' := lazy_reset (today_at env (clock_reads w)) a) in *.
  set (w1 := mkWorld _ _ _).
  assert (Ha' : pool w1 !! cursor w = Some a').
  { unfold w1, pool. simpl. apply list_lookup_insert_eq. exact Hc. }
  rewrite Ha'. cbv zeta.
  assert (Htok : api_token a' = api_token a) by apply lazy_reset_fixed.
  assert (Hname : username a' = username a) by apply lazy_reset_fixed.
  assert (Hreq : request_for w1 (api_token a') url
                 = request_for w (api_token a) url).
  { unfold request_for, w1. simpl. now rewrite Htok. }
  rewrite Hreq. change (upstream_log w1) with (upstream_log w).
  rewrite Hresp. simpl link_of. rewrite H2xx. rewrite Hname.
  unfold after_response. simpl counts_use. rewrite H2xx.
  eexists. split; [reflexivity |]. simpl.
  split; [| split; reflexivity].
  change (alter count_use (cursor w) (pool w1)
          = <[cursor w := count_use a']> (pool w)).
  rewrite (alter_as_insert count_use _ (cursor w) a' Ha').
  apply list_insert_insert_eq.
Qed.

Lemma success_on_first_attempt_witness :
  ∃ w',
    shorten_url
      (mkEnv (steady_clock day2)
             (upstream_always (Http 201 (Link "https://bit.ly/abc"))))
      "https://example.com" (world_of [dave; alice])
    = (Ok (mkURLResult "https://example.com" "https://bit.ly/abc" "dave"
                       "2024-05-02T12:00:00" true ""),
       w')
    ∧ pool w' = <[0 := count_use (lazy_reset day2 dave)]> [dave; alice]
    ∧ cursor w' = slot 2 0 1
    ∧ upstream_log w'
      = [mkCall 0 (request_for (world_of [dave; alice]) "token-d"
                               "https://example.com")
                (Http 201 (Link "https://bit.ly/abc"))].
Proof.
  apply (success_on_first_attempt
           (mkEnv (steady_clock day2)
                  (upstream_always (Http 201 (Link "https://bit.ly/abc"))))
           "https://example.com" (world_of [dave; alice]) dave 201
           "https://bit.ly/abc").
  - reflexivity.
  - reflexivity.
  - reflexivity.
  - reflexivity.
Defined.

Lemma counts_use_false_link resp : counts_use resp = false → link_of resp = None.
Proof.
  intros Hf. destruct (link_of resp) as [link |] eqn:Hl; [| reflexivity].
  apply link_of_counts_use in Hl. congruence.
Qed.

Lemma shorten_attempts_whole_budget env url rem :
  (∀ n req, counts_use (post env n req) = false) →
  ∀ att w j a0,
    cursor_ok w → pool w !! j = Some a0 → always_eligible env a0 →
    att + S rem = max_retries →
    ∃ res w' calls,
      shorten_attempts env url (S rem) att w = (Ok res, w')
      ∧ upstream_log w' = (upstream_log w ++ calls)%list
      ∧ length calls = S rem
      ∧ success res = false.
Proof.
  intros Hfail. induction rem as [| rem IH]; intros att w j a0 Hc Ha0 He Hatt;
    rewrite shorten_attempts_S;
    destruct (select_of_eligible env w j a0 Hc Ha0 He)
      as (k & i & w1 & Hrun & Hk & Hsw & Hi & Hv & _);
    rewrite Hrun;
    destruct (select_Some_lookup env w k i w1 Hsw (proj1 Hk) Hi Hv)
      as (a1 & Ha1 & _);
    rewrite Ha1; cbv zeta;
    set (req := request_for w1 (api_token a1) url);
    pose proof (Hfail (length (upstream_log w1)) req) as Hcnt;
    pose proof (counts_use_false_link _ Hcnt) as Hlink;
    set (resp := post env (length (upstream_log w1)) req) in *;
    rewrite Hlink; unfold after_response; rewrite Hcnt;
    set (c0 := mkCall i req resp);
    pose proof (swept_log _ _ _ _ Hsw) as Hg1.
  - assert (att = 2) as -> by (unfold max_retries in Hatt; lia).
    change (Nat.ltb 2 (max_retries - 1)) with false. cbv iota.
    rewrite shorten_attempts_0, !failure_run.
    destruct (terminal_message resp);
      (eexists _, _, [c0]; split; [reflexivity |]; simpl; rewrite Hg1; auto).
  - assert (Hlt : (att <? max_retries - 1) = true).
    { apply Nat.ltb_lt. unfold max_retries in *. lia. }
    rewrite Hlt.
    destruct (swept_always_eligible env w k w1 j a0 Hc (proj2 Hk) Hsw Ha0 He)
      as (a0' & Ha0' & He').
    assert (Hc2 : cursor_ok (log_call c0 w1)).
    { apply (swept_cursor_ok _ _ _ _ Hc Hsw). }
    destruct (IH (S att) (log_call c0 w1) j a0' Hc2 Ha0' He' ltac:(lia))
      as (res & w' & calls & Hr & Hg & Hlen & Hs).
    assert (Hboth : ∃ res w' calls,
      shorten_attempts env url (S rem) (S att) (log_call c0 w1) = (Ok res, w')
      ∧ upstream_log w' = (upstream_log w ++ calls)%list
      ∧ length calls = S (S rem)
      ∧ success res = false).
    { exists res, w', (c0 :: calls). split; [exact Hr |].
      split; [rewrite Hg; simpl; rewrite Hg1, <- app_assoc; reflexivity |].
      split; [simpl; lia | exact Hs]. }
    destruct (terminal_message resp); exact Hboth.
Qed.

(** X9. With an account in the pool that is eligible whenever the cursor
    comes to it and an upstream none of whose answers is a 200 or 201 with a
    body that parses as JSON (errors of the transport, other statuses,
    bodies that are not JSON), [shorten_url] uses its whole budget: it makes exactly three
    calls and returns a failure.  When the third answer is a 429 the message
    is "Max retries exceeded" and no account is named; otherwise the message
    is that of the third answer and the account is the one of the third
    call. *)
Theorem persistent_failure_uses_budget env url w j a0 :
  cursor_ok w →
  pool w !! j = Some a0 → always_eligible env a0 →
  (∀ n req, counts_use (post env n req) = false) →
  ∃ res w' c1 c2 c3,
    shorten_url env url w = (Ok res, w')
    ∧ upstream_log w' = (upstream_log w ++ [c1; c2; c3])%list
    ∧ success res = false
    ∧ ((∃ body, call_response c3 = Http 429 body)
       ∧ error_message res = "Max retries exceeded"
       ∧ account_used res = ""
       ∨ ∃ msg a,
           terminal_message (call_response c3) = Some msg
           ∧ error_message res = msg
           ∧ pool w' !! call_account c3 = Some a
           ∧ account_used res = username a).
Proof.
  intros Hc Ha0 He Hfail.
  destruct (shorten_attempts_whole_budget env url 2 Hfail 0 w j a0 Hc Ha0 He
              eq_refl)
    as (res & w' & calls & Hrun & Hlog & Hlen & Hfalse).
  destruct (shorten_url_outcome env url w Hc)
    as (res0 & w0 & calls0 & Hrun0 & Hlog0 & _ & _ & _ & Hout).
  unfold shorten_url, max_retries in Hrun0. rewrite Hrun in Hrun0.
  injection Hrun0 as <- <-.
  assert (calls0 = calls) as ->.
  { rewrite Hlog in Hlog0. now apply app_inv_head in Hlog0. }
  destruct calls as [| c1 [| c2 [| c3 [| c4 calls]]]]; try discriminate.
  exists res, w', c1, c2, c3. split; [exact Hrun |]. split; [exact Hlog |].
  destruct Hout as [Hl | Hl Hlast Hu Hm Hs Hk
                    | c link a Hl Hlast Hlink Ha Hu Hk Hs Hm
                    | c msg a Hl Hlast Hlink Hmsg Ha Hu Hm Hs Hk].
  - simpl in Hl. unfold max_retries in Hl. lia.
  - split; [exact Hs |]. left. split; [now apply Hlast | auto].
  - congruence.
  - split; [exact Hs |]. right. simpl in Hlast. injection Hlast as <-.
    exists msg, a. auto.
Qed.

Lemma persistent_failure_uses_budget_witness :
  ∃ res w' c1 c2 c3,
    shorten_url (mkEnv (steady_clock day2) (upstream_always (Failed "timed out")))
                "https://example.com" (world_of [bob; alice]) = (Ok res, w')
    ∧ upstream_log w'
      = (upstream_log (world_of [bob; alice]) ++ [c1; c2; c3])%list
    ∧ success res = false
    ∧ ((∃ body, call_response c3 = Http 429 body)
       ∧ error_message res = "Max retries exceeded"
       ∧ account_used res = ""
       ∨ ∃ msg a,
           terminal_message (call_response c3) = Some msg
           ∧ error_message res = msg
           ∧ pool w' !! call_account c3 = Some a
           ∧ account_used res = username a).
Proof.
  apply (persistent_failure_uses_budget
           (mkEnv (steady_clock day2) (upstream_always (Failed "timed out")))
           "https://example.com" (world_of [bob; alice]) 1 alice).
  - cursor_in_pool.
  - reflexivity.
  - intros t. reflexivity.
  - intros n req. reflexivity.
Defined.

Lemma resets_count env a a' :
  resets env a a' →
  identity a' = identity a
  ∧ (current_count a' = current_count a ∨ current_count a' = 0%Z).
Proof.
  induction 1 as [a | a t a' H IH]; [auto |].
  destruct IH as (Hid & Hcnt). rewrite identity_lazy_reset in Hid.
  split; [exact Hid |].
  unfold lazy_reset in Hcnt.
  destruct (last_reset a =? today_at env t)%string; simpl in Hcnt; tauto.
Qed.

(** X10. When the upstream never answers 200 or 201 with a JSON body in
    which the link cannot be read, [shorten_url] counts a use only on
    success, once, and on
    the account the record names: after a failure every counter is what it
    was or 0 (reset for a new day); after a success this is so for every
    account but the one named, whose counter is one above such a value. *)
Theorem one_use_per_success env url w :
  links_present env →
  cursor_ok w →
  ∃ res w' used,
    shorten_url env url w = (Ok res, w')
    ∧ (success res = false → used = None)
    ∧ (success res = true →
       ∃ i a, used = Some i ∧ pool w !! i = Some a
              ∧ account_used res = username a)
    ∧ ∀ j a, pool w !! j = Some a →
        ∃ a', pool w' !! j = Some a'
              ∧ identity a' = identity a
              ∧ let uses := if decide (used = Some j) then 1%Z else 0%Z in
                (current_count a' = current_count a + uses
                 ∨ current_count a' = uses)%Z.
Proof.
  intros Hlinks Hc.
  destruct (shorten_url_counters env url w Hlinks Hc)
    as (res & w' & l & Hrun & (Hlen & Hres) & Hfin).
  destruct (success res) eqn:Hs.
  - destruct Hfin as (i & b & Hb & Hu & Hpool).
    exists res, w', (Some i). split; [exact Hrun |].
    split; [intros ?; congruence |]. split.
    + intros _.
      assert (Hi : i < length (pool w)).
      { rewrite <- Hlen. apply lookup_lt_is_Some. eauto. }
      apply lookup_lt_is_Some in Hi as [a Ha].
      destruct (Hres i a Ha) as (b' & Hb' & Hr).
      rewrite Hb in Hb'. injection Hb' as <-.
      destruct (resets_count env a b Hr) as (Hid & _).
      exists i, a. split; [reflexivity |]. split; [exact Ha |].
      unfold identity in Hid. injection Hid as Hn _ _ _. congruence.
    + intros j a Ha. destruct (Hres j a Ha) as (b' & Hb' & Hr).
      destruct (resets_count env a b' Hr) as (Hid & Hcnt).
      rewrite Hpool. destruct (decide (Some i = Some j)) as [Heq | Hne].
      * injection Heq as <-. exists (count_use b').
        rewrite list_lookup_alter_eq, Hb'. split; [reflexivity |].
        split; [exact Hid |]. unfold count_use. simpl. lia.
      * exists b'. rewrite list_lookup_alter_ne by congruence.
        split; [exact Hb' |]. split; [exact Hid |]. lia.
  - exists res, w', None. split; [exact Hrun |]. split; [reflexivity |].
    split; [intros ?; congruence |].
    intros j a Ha. destruct (Hres j a Ha) as (b' & Hb' & Hr).
    destruct (resets_count env a b' Hr) as (Hid & Hcnt).
    exists b'. rewrite Hfin. split; [exact Hb' |]. split; [exact Hid |].
    destruct (decide (None = Some j)); [discriminate | lia].
Qed.

Lemma one_use_per_success_witness :
  ∃ res w' used,
    shorten_url
      (mkEnv (steady_clock day2)
             (upstream_always (Http 200 (Link "https://bit.ly/abc"))))
      "https://example.com" (world_of [carol; dave]) = (Ok res, w')
    ∧ (success res = false → used = None)
    ∧ (success res = true →
       ∃ i a, used = Some i ∧ pool (world_of [carol; dave]) !! i = Some a
              ∧ account_used res = username a)
    ∧ ∀ j a, pool (world_of [carol; dave]) !! j = Some a →
        ∃ a', pool w' !! j = Some a'
              ∧ identity a' = identity a
              ∧ let uses := if decide (used = Some j) then 1%Z else 0%Z in
                (current_count a' = current_count a + uses
                 ∨ current_count a' = uses)%Z.
Proof.
  apply (one_use_per_success
           (mkEnv (steady_clock day2)
                  (upstream_always (Http 200 (Link "https://bit.ly/abc"))))
           "https://example.com" (world_of [carol; dave])).
  - intros n req code msg H. discriminate.
  - cursor_in_pool.
Defined.

(** ** Stripping and the scheme of a URL (lines 192-198 and 227-229) *)

Lemma lstrip_length s : String.length (lstrip s) ≤ String.length s.
Proof.
  induction s as [| c s IH]; simpl; [lia |].
  destruct (isspace c); simpl; lia.
Qed.

Lemma lstrip_head c s : lstrip (String c s) = String c s → isspace c = false.
Proof.
  simpl. destruct (isspace c); [| reflexivity].
  intros H. pose proof (lstrip_length s) as Hl. rewrite H in Hl.
  simpl in Hl. lia.
Qed.

Lemma lstrip_idem s : lstrip (lstrip s) = lstrip s.
Proof.
  induction s as [| c s IH]; simpl; [reflexivity |].
  destruct (isspace c) eqn:Hc; [exact IH |]. simpl. now rewrite Hc.
Qed.

Lemma rstrip_cons c s :
  isspace c = false → rstrip s = s → rstrip (String c s) = String c s.
Proof.
  intros Hc Hs. simpl. rewrite Hs.
  destruct s; [now rewrite Hc | reflexivity].
Qed.

Lemma rstrip_idem s : rstrip (rstrip s) = rstrip s.
Proof.
  induction s as [| c s IH]; simpl; [reflexivity |].
  destruct (rstrip s) as [| d r] eqn:Hr.
  - destruct (isspace c) eqn:Hc; [reflexivity |]. simpl. now rewrite Hc.
  - simpl. simpl in IH. rewrite IH. reflexivity.
Qed.

Lemma lstrip_rstrip s : lstrip s = s → lstrip (rstrip s) = rstrip s.
Proof.
  destruct s as [| c s]; [reflexivity |]. intros H.
  apply lstrip_head in H. simpl.
  destruct (rstrip s); rewrite ?H; simpl; now rewrite H.
Qed.

Lemma strip_idem s : strip (strip s) = strip s.
Proof.
  unfold strip. rewrite (lstrip_rstrip (lstrip s)) by apply lstrip_idem.
  apply rstrip_idem.
Qed.

Lemma strip_with_scheme s :
  strip s = s → strip ("https://" ++ s) = "https://" ++ s.
Proof.
  intros Hs. unfold strip. simpl lstrip.
  assert (Hr : rstrip s = s).
  { rewrite <- Hs. unfold strip. apply rstrip_idem. }
  simpl append. repeat (apply rstrip_cons; [reflexivity |]). exact Hr.
Qed.

Lemma starts_with_scheme s : startswith ("https://" ++ s) "https://" = true.
Proof. unfold startswith. simpl. destruct s; reflexivity. Qed.

(** X11. The URL that the routes dispatch always starts with "http://" or
    "https://" and has no white space at either end; normalizing it again
    changes nothing. *)
Theorem normalize_idempotent url :
  (startswith (normalize url) "http://"
   || startswith (normalize url) "https://") = true
  ∧ strip (normalize url) = normalize url
  ∧ normalize (normalize url) = normalize url.
Proof.
  assert (Hcases :
    (startswith (normalize url) "http://"
     || startswith (normalize url) "https://") = true
    ∧ strip (normalize url) = normalize url).
  { unfold normalize.
    destruct (startswith (strip url) "http://"
              || startswith (strip url) "https://") eqn:Hp; cbn [negb].
    - split; [exact Hp | apply strip_idem].
    - split; [| apply strip_with_scheme, strip_idem].
      rewrite starts_with_scheme. apply orb_true_r. }
  destruct Hcases as (Hscheme & Hclean).
  split; [exact Hscheme |]. split; [exact Hclean |].
  unfold normalize at 1. rewrite Hclean, Hscheme. reflexivity.
Qed.

(** ** The routes *)

Lemma normalize_steps url :
  (if negb (startswith (strip url) "http://"
            || startswith (strip url) "https://")
   then "https://" ++ strip url
   else strip url) = normalize url.
Proof. reflexivity. Qed.

Lemma shorten_dispatch env url_field w :
  cursor_ok w →
  (truthy (strip (default "" url_field)) = false →
   shorten env url_field w = (SingleError "URL is required" 400, w))
  ∧ (truthy (strip (default "" url_field)) = true →
     ∃ res w',
       shorten_url env (normalize (default "" url_field)) w = (Ok res, w')
       ∧ shorten env url_field w = (SingleOk (entry_of res), w')).
Proof.
  intros Hc. pose proof (cursor_ok_nonempty w Hc) as Hne.
  unfold shorten. fold (pool w).
  destruct (pool w) as [| a0 l] eqn:Hp; [contradiction |]. split.
  - intros ->. reflexivity.
  - intros ->. cbn [negb]. rewrite normalize_steps.
    destruct (shorten_url_outcome env (normalize (default "" url_field)) w Hc)
      as (res & w' & calls & Hrun & _).
    exists res, w'. rewrite Hrun. auto.
Qed.



(** X13. For a URL that is not blank, [shorten_bulk] on the list of this one
    URL dispatches what [shorten] dispatches: its single result is the
    answer of [shorten], the state it leaves is the same, and the counts are
    1 and 0 according to that result. *)
Theorem bulk_of_one_is_single env url w :
  cursor_ok w →
  truthy (strip url) = true →
  ∃ entry w',
    shorten env (Some url) w = (SingleOk entry, w')
    ∧ shorten_bulk env [url] w
      = (BulkReply 1 (if entry_success entry then 1 else 0)
                   (if entry_success entry then 0 else 1) [entry], w').
Proof.
  intros Hc Hurl.
  destruct (shorten_dispatch env (Some url) w Hc) as (_ & Hdispatch).
  destruct (Hdispatch Hurl) as (res & w' & Hrun & Hsingle).
  exists (entry_of res), w'. split; [exact Hsingle |].
  pose proof (cursor_ok_nonempty w Hc) as Hne.
  unfold shorten_bulk. fold (pool w).
  destruct (pool w) as [| a0 l] eqn:Hp; [contradiction |].
  cbn [bulk_loop]. unfold bind. simpl in Hrun. rewrite Hrun.
  unfold ret. simpl. destruct (success res); reflexivity.
Qed.

Lemma bulk_of_one_is_single_witness :
  ∃ entry w',
    shorten env_500 (Some "example.com") (world_of [alice])
    = (SingleOk entry, w')
    ∧ shorten_bulk env_500 ["example.com"] (world_of [alice])
      = (BulkReply 1 (if entry_success entry then 1 else 0)
                   (if entry_success entry then 0 else 1) [entry], w').
Proof.
  apply (bulk_of_one_is_single env_500 "example.com" (world_of [alice])).
  - cursor_in_pool.
  - reflexivity.
Defined.

(** X14. A blank URL is treated differently by the two routes: [shorten]
    refuses it with "URL is required", while [shorten_bulk] does not test
    its elements and dispatches it as "https://", which is the URL of its
    result. *)
Theorem blank_url_in_bulk env url w :
  cursor_ok w →
  strip url = "" →
  shorten env (Some url) w = (SingleError "URL is required" 400, w)
  ∧ ∃ res w',
      shorten_url env "https://" w = (Ok res, w')
      ∧ shorten_bulk env [url] w
        = (BulkReply 1 (if success res then 1 else 0)
                     (if success res then 0 else 1) [entry_of res], w')
      ∧ entry_original_url (entry_of res) = "https://".
Proof.
  intros Hc Hblank.
  destruct (shorten_dispatch env (Some url) w Hc) as (Hrefuse & _).
  split; [apply Hrefuse; simpl; now rewrite Hblank |].
  destruct (shorten_url_outcome env "https://" w Hc)
    as (res & w' & calls & Hrun & _ & _ & _ & Hurl & _).
  exists res, w'. split; [exact Hrun |].
  pose proof (cursor_ok_nonempty w Hc) as Hne.
  unfold shorten_bulk. fold (pool w).
  destruct (pool w) as [| a0 l] eqn:Hp; [contradiction |].
  cbn [bulk_loop]. unfold bind.
  assert (Hn : normalize url = "https://").
  { unfold normalize. rewrite Hblank. reflexivity. }
  rewrite Hn, Hrun. unfold ret. simpl. rewrite Hurl.
  split; [destruct (success res); reflexivity | reflexivity].
Qed.

Lemma blank_url_in_bulk_witness :
  shorten env_500 (Some " ") (world_of [alice])
  = (SingleError "URL is required" 400, world_of [alice])
  ∧ ∃ res w',
      shorten_url env_500 "https://" (world_of [alice]) = (Ok res, w')
      ∧ shorten_bulk env_500 [" "] (world_of [alice])
        = (BulkReply 1 (if success res then 1 else 0)
                     (if success res then 0 else 1) [entry_of res], w')
      ∧ entry_original_url (entry_of res) = "https://".
Proof.
  apply (blank_url_in_bulk env_500 " " (world_of [alice])).
  - cursor_in_pool.
  - reflexivity.
Defined.




(** ** Loading the accounts *)

Lemma load_rows_valid int rows :
  ∀ acc,
    (∀ row, row ∈ rows → account_of_row int row ≠ Invalid) →
    load_rows int rows acc = Some (acc ++ loaded_accounts int rows)%list.
Proof.
  induction rows as [| row rows IH]; intros acc Hvalid.
  - simpl. now rewrite app_nil_r.
  - assert (Hrest : ∀ r, r ∈ rows → account_of_row int r ≠ Invalid).
    { intros r Hr. apply Hvalid. now right. }
    assert (Hrow : account_of_row int row ≠ Invalid).
    { apply Hvalid. now left. }
    unfold loaded_accounts. cbn [load_rows omap list_omap].
    fold (loaded_accounts int rows).
    destruct (account_of_row int row) as [| a |]; [| | contradiction].
    + now apply IH.
    + rewrite IH by exact Hrest. now rewrite <- app_assoc.
Qed.

Lemma load_rows_invalid int rows row :
  row ∈ rows → account_of_row int row = Invalid →
  ∀ acc, load_rows int rows acc = None.
Proof.
  intros Hin Hbad. induction rows as [| r rows IH]; intros acc.
  - inversion Hin.
  - simpl. apply elem_of_cons in Hin as [<- | Hin].
    + now rewrite Hbad.
    + destruct (account_of_row int r); auto.
Qed.

Lemma loaded_accounts_length int rows :
  length (loaded_accounts int rows) ≤ length rows.
Proof.
  unfold loaded_accounts. induction rows as [| row rows IH]; [simpl; lia |].
  cbn [omap list_omap]. destruct (account_of_row int row); simpl in *; lia.
Qed.

Lemma account_of_row_invalid int row :
  account_of_row int row = Invalid
  ↔ truthy_cell (username_cell row) = true
    ∧ truthy_cell (token_cell row) = true
    ∧ (int_cell int (row !! "daily_limit") 1000 = None
       ∨ int_cell int (row !! "current_count") 0 = None).
Proof.
  unfold account_of_row. fold (username_cell row) (token_cell row).
  destruct (truthy_cell (username_cell row)),
           (truthy_cell (token_cell row)); simpl;
    try (split; [discriminate | intros (? & ? & ?); discriminate]).
  destruct (int_cell int (row !! "daily_limit") 1000) as [limit |].
  - destruct (int_cell int (row !! "current_count") 0) as [count |].
    + split; [discriminate | intros (_ & _ & [H | H]); discriminate].
    + split; auto.
  - split; auto.
Qed.

(** X16. When the file is read to its end and [int] accepts the limit and
    the count of every row that has a username and a token, the loader
    returns the accounts of exactly those rows, in the order of the file;
    rows without a username or without a token are passed over, whatever
    their other cells. *)
Theorem load_keeps_valid_rows int rows :
  (∀ row, row ∈ rows →
     truthy_cell (username_cell row) = true →
     truthy_cell (token_cell row) = true →
     is_Some (int_cell int (row !! "daily_limit") 1000)
     ∧ is_Some (int_cell int (row !! "current_count") 0)) →
  load_accounts_from_csv int (Table rows true) = loaded_accounts int rows
  ∧ length (loaded_accounts int rows) ≤ length rows
  ∧ ∀ row, row ∈ rows →
      (truthy_cell (username_cell row) && truthy_cell (token_cell row) = false
       → account_of_row int row = Skipped)
      ∧ (truthy_cell (username_cell row) && truthy_cell (token_cell row) = true
         → ∃ a, account_of_row int row = Loaded a
                ∧ a ∈ loaded_accounts int rows).
Proof.
  intros Hint.
  assert (Hvalid : ∀ row, row ∈ rows → account_of_row int row ≠ Invalid).
  { intros row Hin Hbad. apply account_of_row_invalid in Hbad
      as (Hu & Ht & Hfail).
    destruct (Hint row Hin Hu Ht) as ([x Hx] & [y Hy]).
    destruct Hfail; congruence. }
  split; [| split].
  - unfold load_accounts_from_csv.
    now rewrite (load_rows_valid int rows [] Hvalid).
  - apply loaded_accounts_length.
  - intros row Hin. split.
    + intros Hf. unfold account_of_row.
      fold (username_cell row) (token_cell row). now rewrite Hf.
    + intros Ht. specialize (Hvalid row Hin).
      destruct (account_of_row int row) as [| a |] eqn:Hrow.
      * unfold account_of_row in Hrow.
        fold (username_cell row) (token_cell row) in Hrow.
        rewrite Ht in Hrow.
        destruct (int_cell int (row !! "daily_limit") 1000);
          [destruct (int_cell int (row !! "current_count") 0) |];
          discriminate.
      * exists a. split; [reflexivity |].
        unfold loaded_accounts. apply list_elem_of_omap.
        exists row. split; [exact Hin |]. now rewrite Hrow.
      * contradiction.
Qed.

Lemma load_keeps_valid_rows_witness :
  load_accounts_from_csv int_decimal
    (Table [row_full; row_no_token; row_aliases] true)
  = loaded_accounts int_decimal [row_full; row_no_token; row_aliases]
  ∧ length (loaded_accounts int_decimal [row_full; row_no_token; row_aliases])
    ≤ length [row_full; row_no_token; row_aliases]
  ∧ ∀ row, row ∈ [row_full; row_no_token; row_aliases] →
      (truthy_cell (username_cell row) && truthy_cell (token_cell row) = false
       → account_of_row int_decimal row = Skipped)
      ∧ (truthy_cell (username_cell row) && truthy_cell (token_cell row) = true
         → ∃ a, account_of_row int_decimal row = Loaded a
                ∧ a ∈ loaded_accounts int_decimal
                       [row_full; row_no_token; row_aliases]).
Proof.
  apply (load_keeps_valid_rows int_decimal
           [row_full; row_no_token; row_aliases]).
  intros row Hin Hu Ht. apply list_elem_of_In in Hin. simpl in Hin.
  destruct Hin as [<- | [<- | [<- | []]]];
    try (split; vm_compute; eauto); vm_compute in Ht; discriminate.
Defined.

(** X17. The loader is all or nothing: when some row with a username and a
    token has a limit or a count that [int] rejects, no account at all is
    returned, not even those of the rows before it, whether or not the file
    is read to its end. *)
Theorem load_invalid_row_empties int rows row complete :
  row ∈ rows →
  truthy_cell (username_cell row) = true →
  truthy_cell (token_cell row) = true →
  int_cell int (row !! "daily_limit") 1000 = None
  ∨ int_cell int (row !! "current_count") 0 = None →
  load_accounts_from_csv int (Table rows complete) = [].
Proof.
  intros Hin Hu Ht Hfail.
  assert (Hbad : account_of_row int row = Invalid).
  { apply account_of_row_invalid. auto. }
  unfold load_accounts_from_csv.
  now rewrite (load_rows_invalid int rows row Hin Hbad []).
Qed.

Lemma load_invalid_row_empties_witness :
  load_accounts_from_csv int_decimal
    (Table [row_full; row_aliases; row_bad_limit] true) = [].
Proof.
  apply (load_invalid_row_empties int_decimal
           [row_full; row_aliases; row_bad_limit] row_bad_limit true).
  - apply list_elem_of_In. simpl. auto.
  - reflexivity.
  - reflexivity.
  - left. reflexivity.
Defined.

Lemma load_rows_elem int rows :
  ∀ acc l, load_rows int rows acc = Some l →
  ∀ a, a ∈ l → a ∈ acc ∨ ∃ row, row ∈ rows ∧ account_of_row int row = Loaded a.
Proof.
  induction rows as [| row rows IH]; intros acc l Hload a Hin.
  - simpl in Hload. injection Hload as <-. now left.
  - simpl in Hload. destruct (account_of_row int row) as [| b |] eqn:Hrow;
      [| | discriminate].
    + destruct (IH acc l Hload a Hin) as [H | (r & Hr & Hl)]; [now left |].
      right. exists r. split; [now right | exact Hl].
    + destruct (IH _ l Hload a Hin) as [H | (r & Hr & Hl)].
      * apply elem_of_app in H as [H | H]; [now left |].
        apply list_elem_of_singleton in H as ->.
        right. exists row. split; [now left | exact Hrow].
      * right. exists r. split; [now right | exact Hl].
Qed.

Lemma strip_empty : strip "" = "".
Proof. reflexivity. Qed.

(** X18. Every account the loader returns comes from a row of the file that
    has a username and a token; its username, password and token carry no
    white space at either end, and its limit and count are what [int] made
    of the cells, or 1000 and 0 where the row has no such column. *)
Theorem loaded_account_fields int file a :
  a ∈ load_accounts_from_csv int file →
  ∃ rows complete row,
    file = Table rows complete ∧ row ∈ rows
    ∧ truthy_cell (username_cell row) = true
    ∧ truthy_cell (token_cell row) = true
    ∧ username a = strip (default "" (username_cell row))
    ∧ api_token a = strip (default "" (token_cell row))
    ∧ strip (username a) = username a
    ∧ strip (password a) = password a
    ∧ strip (api_token a) = api_token a
    ∧ int_cell int (row !! "daily_limit") 1000 = Some (daily_limit a)
    ∧ int_cell int (row !! "current_count") 0 = Some (current_count a)
    ∧ last_reset a = default "" (row !! "last_reset").
Proof.
  intros Hin. destruct file as [| rows complete]; [inversion Hin |].
  unfold load_accounts_from_csv in Hin.
  destruct (load_rows int rows []) as [l |] eqn:Hload; [| inversion Hin].
  destruct complete; [| inversion Hin].
  destruct (load_rows_elem int rows [] l Hload a Hin) as [H | (row & Hr & Hrow)];
    [inversion H |].
  exists rows, true, row. split; [reflexivity |]. split; [exact Hr |].
  unfold account_of_row in Hrow.
  fold (username_cell row) (token_cell row) in Hrow.
  destruct (truthy_cell (username_cell row)) eqn:Hu; [| discriminate].
  destruct (truthy_cell (token_cell row)) eqn:Ht; [| discriminate].
  simpl in Hrow.
  destruct (int_cell int (row !! "daily_limit") 1000) as [limit |];
    [| discriminate].
  destruct (int_cell int (row !! "current_count") 0) as [count |];
    [| discriminate].
  injection Hrow as <-. simpl.
  repeat split; auto using strip_idem.
  destruct (truthy_cell (py_or (row !! "password") (row !! "Password")));
    [apply strip_idem | reflexivity].
Qed.

Lemma loaded_account_fields_witness :
  ∃ rows complete row,
    Table [row_no_token; row_aliases] true = Table rows complete ∧ row ∈ rows
    ∧ truthy_cell (username_cell row) = true
    ∧ truthy_cell (token_cell row) = true
    ∧ username (mkAccount "bob@example.org" "" "token-b" 1000 0 "")
      = strip (default "" (username_cell row))
    ∧ api_token (mkAccount "bob@example.org" "" "token-b" 1000 0 "")
      = strip (default "" (token_cell row))
    ∧ strip (username (mkAccount "bob@example.org" "" "token-b" 1000 0 ""))
      = username (mkAccount "bob@example.org" "" "token-b" 1000 0 "")
    ∧ strip (password (mkAccount "bob@example.org" "" "token-b" 1000 0 ""))
      = password (mkAccount "bob@example.org" "" "token-b" 1000 0 "")
    ∧ strip (api_token (mkAccount "bob@example.org" "" "token-b" 1000 0 ""))
      = api_token (mkAccount "bob@example.org" "" "token-b" 1000 0 "")
    ∧ int_cell int_decimal (row !! "daily_limit") 1000
      = Some (daily_limit (mkAccount "bob@example.org" "" "token-b" 1000 0 ""))
    ∧ int_cell int_decimal (row !! "current_count") 0
      = Some (current_count (mkAccount "bob@example.org" "" "token-b" 1000 0 ""))
    ∧ last_reset (mkAccount "bob@example.org" "" "token-b" 1000 0 "")
      = default "" (row !! "last_reset").
Proof.
  apply (loaded_account_fields int_decimal
           (Table [row_no_token; row_aliases] true)).
  vm_compute. apply list_elem_of_In. simpl. auto.
Defined.

Lemma load_rows_None int rows :
  ∀ acc, load_rows int rows acc = None →
  ∃ row, row ∈ rows ∧ account_of_row int row = Invalid.
Proof.
  induction rows as [| row rows IH]; intros acc Hload; [discriminate |].
  simpl in Hload. destruct (account_of_row int row) as [| a |] eqn:Hrow.
  - destruct (IH _ Hload) as (r & Hr & Hbad). exists r. split; [now right | auto].
  - destruct (IH _ Hload) as (r & Hr & Hbad). exists r. split; [now right | auto].
  - exists row. split; [now left | exact Hrow].
Qed.

Lemma load_rows_Some int rows :
  ∀ acc l, load_rows int rows acc = Some l →
  l = (acc ++ loaded_accounts int rows)%list
  ∧ ∀ row, row ∈ rows → account_of_row int row ≠ Invalid.
Proof.
  induction rows as [| row rows IH]; intros acc l Hload.
  - simpl in Hload. injection Hload as <-. rewrite app_nil_r.
    split; [reflexivity |]. intros row Hin. inversion Hin.
  - simpl in Hload. unfold loaded_accounts. cbn [omap list_omap].
    fold (loaded_accounts int rows).
    destruct (account_of_row int row) as [| a |] eqn:Hrow; [| | discriminate];
      destruct (IH _ l Hload) as (Hl & Hvalid);
      (split; [rewrite Hl, <- ?app_assoc; reflexivity |]);
      intros r Hin; apply elem_of_cons in Hin as [-> | Hin]; auto; congruence.
Qed.

(** The loader returns no account in these cases and no others. *)
Lemma load_empty_iff int file :
  load_accounts_from_csv int file = []
  ↔ file = Missing
    ∨ ∃ rows complete,
        file = Table rows complete
        ∧ (complete = false
           ∨ (∃ row, row ∈ rows ∧ account_of_row int row = Invalid)
           ∨ ∀ row, row ∈ rows → account_of_row int row = Skipped).
Proof.
  split.
  - intros Hload. destruct file as [| rows complete]; [now left |].
    right. exists rows, complete. split; [reflexivity |].
    destruct complete; [| now left]. right.
    unfold load_accounts_from_csv in Hload.
    destruct (load_rows int rows []) as [l |] eqn:Hrows.
    + right. destruct (load_rows_Some int rows [] l Hrows) as (Hl & Hvalid).
      simpl in Hl. rewrite Hl in Hload. intros row Hin.
      destruct (account_of_row int row) as [| a |] eqn:Hrow; [reflexivity | |].
      * assert (Ha : a ∈ loaded_accounts int rows).
        { unfold loaded_accounts. apply list_elem_of_omap.
          exists row. split; [exact Hin | now rewrite Hrow]. }
        rewrite Hload in Ha. inversion Ha.
      * now apply Hvalid in Hrow.
    + left. now apply (load_rows_None int rows []).
  - intros [-> | (rows & complete & -> & Hcause)]; [reflexivity |].
    unfold load_accounts_from_csv.
    destruct Hcause as [-> | [(row & Hin & Hbad) | Hskip]].
    + destruct (load_rows int rows []); reflexivity.
    + now rewrite (load_rows_invalid int rows row Hin Hbad []).
    + rewrite (load_rows_valid int rows []).
      * simpl. assert (Hnone : loaded_accounts int rows = []).
        { unfold loaded_accounts. clear -Hskip.
          induction rows as [| r rows IH]; [reflexivity |].
          cbn [omap list_omap]. rewrite (Hskip r) by now left.
          apply IH. intros row Hin. apply Hskip. now right. }
        rewrite Hnone. now destruct complete.
      * intros row Hin. rewrite (Hskip row Hin). discriminate.
Qed.

(** X19. The process starts without a manager, and its two routes answer
    every request with the error "No accounts configured" (500) and do
    nothing else, exactly when the file of accounts is missing, is not read
    to its end, has a row with a username and a token whose limit or count
    [int] rejects, or has only rows without a username or without a
    token. *)
Theorem startup_without_accounts int file :
  (file = Missing
   ∨ ∃ rows complete,
       file = Table rows complete
       ∧ (complete = false
          ∨ (∃ row, row ∈ rows ∧ account_of_row int row = Invalid)
          ∨ ∀ row, row ∈ rows → account_of_row int row = Skipped))
  ↔ ∀ env url_field urls,
      shorten env url_field (startup int file)
      = (SingleError "No accounts configured" 500, startup int file)
      ∧ shorten_bulk env urls (startup int file)
        = (ErrorReply "No accounts configured" 500, startup int file).
Proof.
  rewrite <- load_empty_iff. split.
  - intros Hload env url_field urls.
    unfold startup, shorten, shorten_bulk, world_of. simpl.
    rewrite Hload. split; reflexivity.
  - intros Hroutes. destruct (Hroutes env_500 None []) as (Hsingle & _).
    unfold startup, shorten, world_of in Hsingle. simpl in Hsingle.
    destruct (load_accounts_from_csv int file); [reflexivity | discriminate].
Qed.
